(** * Fp and Fp^2 arithmetic of [python-impl/fields.py]

    A shallow embedding of the classes [Fq] (an [int] subclass carrying
    its modulus [Q]) and [Fq2] (a [tuple] subclass built on
    [FieldExtBase]), followed by the properties of the arithmetic
    contract that are checked against the code.

    Python integers are unbounded, so they are [Z]; [x % Q] and [x // Q]
    are floored, which is exactly [Z.modulo] and [Z.div], except that
    Python raises [ZeroDivisionError] on a zero divisor.  Exceptions are
    threaded through a small error monad. *)

From Equations Require Import Equations.
From Stdlib Require Import ZArith Zdivisibility List Bool Lia Setoid Morphisms.
Import ListNotations.

Local Open Scope Z_scope.

(** ** Exceptions and the error monad *)

Inductive exn : Type :=
| ZeroDivisionError      (* [x % 0] *)
| AttributeError         (* [.extension] on a plain [int] *)
| IndexError             (* [args[1]] or [buf[k]] out of range *)
| TypeError              (* unsupported operand types *)
| ValueError             (* [a, b = self] on a tuple of another length *)
| AssertionError         (* a failed [assert] *)
| RecursionError         (* unbounded recursion *)
| InvalidArguments.      (* [Exception("Invalid number of arguments")] *)

Inductive result (A : Type) : Type :=
| Ok (a : A)
| Raise (e : exn).
Arguments Ok {A} a.
Arguments Raise {A} e.

Definition bind {A B : Type} (m : result A) (k : A -> result B) : result B :=
  match m with
  | Ok a => k a
  | Raise e => Raise e
  end.

Definition fmap {A B : Type} (f : A -> B) (m : result A) : result B :=
  bind m (fun a => Ok (f a)).

Declare Scope py_scope.
Delimit Scope py_scope with py.
Notation "x <- m ;; k" := (bind m (fun x => k))
  (at level 61, m at next level, right associativity) : py_scope.
Local Open Scope py_scope.

(** [raises m]: the call ends in an exception. *)
Definition raises {A : Type} (m : result A) : Prop :=
  match m with
  | Ok _ => False
  | Raise _ => True
  end.

(** [[f(a) for a in l]], stopping at the first exception. *)
Fixpoint mapM {A B : Type} (f : A -> result B) (l : list A) : result (list B) :=
  match l with
  | [] => Ok []
  | a :: l' => b <- f a ;; bs <- mapM f l' ;; Ok (b :: bs)
  end.

(** ** The prime field: [class Fq(int)] *)

(** An [Fq] object is an [int] (its value, [val]) with an attribute [Q]. *)
Record Fq : Type := mkFq { Q : Z; val : Z }.

(** [Fq.__new__(cls, Q, x)]: [super().__new__(cls, x % Q)], [ret.Q = Q]. *)
Definition Fq_new (q x : Z) : result Fq :=
  if q =? 0 then Raise ZeroDivisionError else Ok (mkFq q (x mod q)).

(** [Fq.zero(Q)], [Fq.one(Q)], [Fq.from_fq(_, fq)]. *)
Definition Fq_zero (q : Z) : result Fq := Fq_new q 0.
Definition Fq_one (q : Z) : result Fq := Fq_new q 1.
Definition Fq_from_fq (q : Z) (fq : Fq) : result Fq := Ok fq.

(** [Fq.__neg__]. *)
Definition Fq_neg (self : Fq) : result Fq := Fq_new (Q self) (- val self).

(** The [isinstance(other, int)] branch of [__add__], [__sub__],
    [__rsub__] and [__mul__]: [other] enters through its integer value
    only, the arithmetic is [int]'s, and the result is rebuilt with
    [self.Q]. *)
Definition Fq_add_int (self : Fq) (other : Z) : result Fq :=
  Fq_new (Q self) (val self + other).
Definition Fq_sub_int (self : Fq) (other : Z) : result Fq :=
  Fq_new (Q self) (val self - other).
Definition Fq_rsub_int (self : Fq) (other : Z) : result Fq :=
  Fq_new (Q self) (other - val self).
Definition Fq_mul_int (self : Fq) (other : Z) : result Fq :=
  Fq_new (Q self) (val self * other).

(** [Fq.__pow__].  The tests [other == 0], [other == 1] and
    [other % 2 == 0] are the source's; [self * self] is
    [Fq.__mul__(self, self)].  A negative exponent never reaches a base
    case ([-1 // 2 = -1]), and the unbounded recursion ends in
    [RecursionError].  For [other >= 2] the recursive call is on
    [other // 2 < other]. *)
Equations? Fq_pow (self : Fq) (other : Z) : result Fq
  by wf (Z.to_nat other) lt :=
  Fq_pow self other with Z.eq_dec other 0 := {
    | left _ => Fq_new (Q self) 1
    | right _ with Z.eq_dec other 1 := {
      | left _ => Ok self
      | right _ with Z_lt_dec other 0 := {
        | left _ => Raise RecursionError
        | right _ with Z.eq_dec (other mod 2) 0 := {
          | left _ =>
              sq <- Fq_mul_int self (val self) ;;
              Fq_pow sq (other / 2)
          | right _ =>
              sq <- Fq_mul_int self (val self) ;;
              r <- Fq_pow sq (other / 2) ;;
              Fq_mul_int r (val self) } } } }.
Proof.
  all: assert (0 <= other / 2 < other)
    by (Z.div_mod_to_equations; lia); lia.
Qed.

(** The [while a != 0] loop of [Fq.__invert__] on the state
    [(a, b, x0, x1, y0, y1)]; the state after the loop is returned.
    [|b % a| < |a|] for every nonzero [a], of either sign. *)
Record egcd_state : Type :=
  mkState { st_a : Z; st_b : Z; st_x0 : Z; st_x1 : Z; st_y0 : Z; st_y1 : Z }.

Equations? invert_loop (a b x0 x1 y0 y1 : Z) : egcd_state
  by wf (Z.abs_nat a) lt :=
  invert_loop a b x0 x1 y0 y1 with Z.eq_dec a 0 := {
    | left _ => mkState a b x0 x1 y0 y1
    | right _ =>
        invert_loop (b mod a) a x1 (x0 - (b / a) * x1) y1 (y0 - (b / a) * y1) }.
Proof.
  pose proof (Z.mod_bound_or b a ltac:(assumption)). lia.
Qed.

(** [Fq.__invert__]. *)
Definition Fq_invert (self : Fq) : result Fq :=
  let st := invert_loop (Q self) (val self) 1 0 0 1 in
  Fq_new (Q self) (st_x0 st).

(** ** Coefficients and operands *)

(** What a coefficient slot of an extension tuple can hold: an [Fq], or a
    plain [int] (see [Fq2_new]). *)
Inductive scalar : Type :=
| SInt (n : Z)
| SFq (x : Fq).

(** [int(s)]. *)
Definition int_of (s : scalar) : Z :=
  match s with
  | SInt n => n
  | SFq x => val x
  end.

(** [bool(s)]: neither class overrides [int.__bool__]. *)
Definition scalar_bool (s : scalar) : bool := negb (int_of s =? 0).

(** [-s]. *)
Definition scalar_neg (s : scalar) : result scalar :=
  match s with
  | SInt n => Ok (SInt (- n))
  | SFq x => fmap SFq (Fq_neg x)
  end.

(** [a + b] and [a * b] on coefficients.  With an [Fq] on the left,
    [Fq.__add__] runs; with an [int] on the left and an [Fq] on the right,
    Python tries the subclass's reflected method first, and
    [Fq.__radd__]/[Fq.__rmul__] forward to [__add__]/[__mul__]. *)
Definition scalar_add (a b : scalar) : result scalar :=
  match a, b with
  | SFq x, _ => fmap SFq (Fq_add_int x (int_of b))
  | SInt n, SFq y => fmap SFq (Fq_add_int y n)
  | SInt n, SInt m => Ok (SInt (n + m))
  end.

Definition scalar_mul (a b : scalar) : result scalar :=
  match a, b with
  | SFq x, _ => fmap SFq (Fq_mul_int x (int_of b))
  | SInt n, SFq y => fmap SFq (Fq_mul_int y n)
  | SInt n, SInt m => Ok (SInt (n * m))
  end.

(** [~s]: the field inverse of an [Fq], the bitwise complement of an
    [int]. *)
Definition scalar_invert (s : scalar) : result scalar :=
  match s with
  | SInt n => Ok (SInt (Z.lnot n))
  | SFq x => fmap SFq (Fq_invert x)
  end.

(** [a == b]: [Fq.__eq__] also compares the moduli when both sides are
    [Fq]; against a plain [int] it is [int.__eq__]. *)
Definition scalar_eq (a b : scalar) : bool :=
  match a, b with
  | SFq x, SFq y => (val x =? val y) && (Q x =? Q y)
  | _, _ => int_of a =? int_of b
  end.

(** [a != b]: [Fq] defines [__eq__] only, so [!=] resolves to
    [int.__ne__] and looks at the values alone. *)
Definition scalar_ne (a b : scalar) : bool := negb (int_of a =? int_of b).

(** [a < b]: [int.__lt__]. *)
Definition scalar_lt (a b : scalar) : bool := int_of a <? int_of b.

(** The three-element universe of operands: [int], [Fq] and [Fq2]. *)
Record Fq2 : Type :=
  mkFq2 { ext_Q : Z; coeffs : list scalar; root : Fq }.

Inductive pyval : Type :=
| PInt (n : Z)
| PFq (x : Fq)
| PFq2 (e : Fq2).

(** What a binary special method returns. *)
Inductive outcome (A : Type) : Type :=
| Value (a : A)
| NotImplemented.
Arguments Value {A} a.
Arguments NotImplemented {A}.

Definition of_scalar (s : scalar) : pyval :=
  match s with
  | SInt n => PInt n
  | SFq x => PFq x
  end.

(** [isinstance(v, int)], with the value as a coefficient. *)
Definition as_scalar (v : pyval) : option scalar :=
  match v with
  | PInt n => Some (SInt n)
  | PFq x => Some (SFq x)
  | PFq2 _ => None
  end.

(** Class attributes. *)
Definition Fq_extension : Z := 1.
Definition Fq2_extension : Z := 2.
Definition Fq2_embedding : nat := 2.

(** [v.extension]. *)
Definition extension_of (v : pyval) : result Z :=
  match v with
  | PInt _ => Raise AttributeError
  | PFq _ => Ok Fq_extension
  | PFq2 _ => Ok Fq2_extension
  end.

(** [Fq(Q, a)] on an arbitrary operand: [a % Q] is [int.__mod__] for an
    [int] or an [Fq], and a [TypeError] for a tuple. *)
Definition Fq_of_pyval (q : Z) (a : pyval) : result Fq :=
  match a with
  | PInt n => Fq_new q n
  | PFq x => Fq_new q (val x)
  | PFq2 _ => Raise TypeError
  end.

(** [args[i]]. *)
Definition arg_at (args : list pyval) (i : nat) : result pyval :=
  match nth_error args i with
  | Some a => Ok a
  | None => Raise IndexError
  end.

(** ** The quadratic extension: [class Fq2(FieldExtBase)] *)

(** [FieldExtBase.__new__(cls, Q, *args)] for [cls = Fq2], followed by
    [Fq2.__init__], which sets [root] to [Fq(Q, -1)]. *)
Definition Fq2_new (q : Z) (args : list pyval) : result Fq2 :=
  let try_block : result Z :=
    a0 <- arg_at args 0 ;;
    arg_extension <- extension_of a0 ;;
    a1 <- arg_at args 1 ;;
    _ <- extension_of a1 ;;
    Ok arg_extension in
  st <- match try_block with
        | Ok arg_extension => Ok (arg_extension, args)
        | Raise AttributeError =>
            if negb (length args =? 2)%nat then Raise InvalidArguments
            else
              new_args <- mapM (Fq_of_pyval q) args ;;
              Ok (1, map PFq new_args)
        | Raise e => Raise e
        end ;;
  let '(arg_extension, new_args) := st in
  _ <- (if negb (arg_extension =? 1) then
          if negb (length args =? Fq2_embedding)%nat then Raise InvalidArguments
          else
            mapM (fun arg =>
                    e <- extension_of arg ;;
                    if e =? arg_extension then Ok tt else Raise AssertionError)
                 new_args
        else Ok []) ;;
  cs <- mapM (fun arg =>
                match as_scalar arg with
                | Some s => Ok s
                | None => Raise AssertionError
                end) new_args ;;
  r <- Fq_new q (-1) ;;
  Ok (mkFq2 q cs r).

(** [FieldExtBase.__neg__]. *)
Definition Fq2_neg (self : Fq2) : result Fq2 :=
  cs <- mapM scalar_neg (coeffs self) ;;
  Ok (mkFq2 (ext_Q self) cs (root self)).

(** [(f(a, b) for a, b in zip(l1, l2))]. *)
Fixpoint zipM {A B C : Type} (f : A -> B -> result C) (l1 : list A) (l2 : list B)
  : result (list C) :=
  match l1, l2 with
  | a :: l1', b :: l2' => c <- f a b ;; cs <- zipM f l1' l2' ;; Ok (c :: cs)
  | _, _ => Ok []
  end.

(** [[cls.basefield.zero(self.Q) for _ in self]]. *)
Definition zeros (q : Z) (l : list scalar) : result (list scalar) :=
  mapM (fun _ => fmap SFq (Fq_zero q)) l.

(** The branch of [FieldExtBase.__add__] that lifts a lower operand:
    a list of zeros as long as [self], [other] added into its first
    slot, then the coefficient-wise sum. *)
Definition Fq2_add_lift (self : Fq2) (other : scalar) : result Fq2 :=
  other_new <- zeros (ext_Q self) (coeffs self) ;;
  match other_new with
  | [] => Raise IndexError
  | z :: rest =>
      z' <- scalar_add z other ;;
      cs <- zipM scalar_add (coeffs self) (z' :: rest) ;;
      Ok (mkFq2 (ext_Q self) cs (root self))
  end.

(** [FieldExtBase.__add__].  For an operand that is not an [Fq2] the
    source declines when [type(other) != int and other.extension >
    self.extension]; the first conjunct is false for a plain [int], and
    for an [Fq] the second compares the class attributes. *)
Definition Fq2_add (self : Fq2) (other : pyval) : result (outcome Fq2) :=
  match other with
  | PFq2 o =>
      cs <- zipM scalar_add (coeffs self) (coeffs o) ;;
      Ok (Value (mkFq2 (ext_Q self) cs (root self)))
  | PInt n => fmap Value (Fq2_add_lift self (SInt n))
  | PFq y =>
      if Fq_extension >? Fq2_extension then Ok NotImplemented
      else fmap Value (Fq2_add_lift self (SFq y))
  end.

(** [-v] on an operand. *)
Definition py_neg (v : pyval) : result pyval :=
  match v with
  | PInt n => Ok (PInt (- n))
  | PFq x => fmap PFq (Fq_neg x)
  | PFq2 e => fmap PFq2 (Fq2_neg e)
  end.

(** [FieldExtBase.__sub__]: [self + (-other)]. *)
Definition Fq2_sub (self : Fq2) (other : pyval) : result (outcome Fq2) :=
  n <- py_neg other ;; Fq2_add self n.

(** [for ... in enumerate(l)]. *)
Definition enumerate {A : Type} (l : list A) : list (nat * A) :=
  combine (seq 0 (length l)) l.

Fixpoint foldM {A S : Type} (f : S -> A -> result S) (l : list A) (s : S)
  : result S :=
  match l with
  | [] => Ok s
  | a :: l' => s' <- f s a ;; foldM f l' s'
  end.

(** [buf[k]] and [buf[k] = v] on a list, for [k >= 0]. *)
Definition buf_get (buf : list scalar) (k : nat) : result scalar :=
  match nth_error buf k with
  | Some v => Ok v
  | None => Raise IndexError
  end.

Fixpoint buf_set (buf : list scalar) (k : nat) (v : scalar) : list scalar :=
  match buf, k with
  | [], _ => []
  | _ :: t, O => v :: t
  | h :: t, S k' => h :: buf_set t k' v
  end.

(** [n % m] on non-negative integers. *)
Definition py_mod (n m : nat) : result nat :=
  if (m =? 0)%nat then Raise ZeroDivisionError else Ok (n mod m)%nat.

(** The body of the inner loop of [FieldExtBase.__mul__]:
    [if x and y:] then [buf[(i + j) % embedding] += x * y], with the
    product scaled by [self.root] when [i + j >= embedding].  The slot is
    read before the right-hand side is evaluated. *)
Definition mul_inner_body (embedding : nat) (rt : Fq) (i : nat) (x : scalar)
    (buf : list scalar) (jy : nat * scalar) : result (list scalar) :=
  let '(j, y) := jy in
  if scalar_bool x && scalar_bool y then
    if (embedding <=? i + j)%nat then
      k <- py_mod (i + j) embedding ;;
      old <- buf_get buf k ;;
      xy <- scalar_mul x y ;;
      t <- scalar_mul xy (SFq rt) ;;
      new <- scalar_add old t ;;
      Ok (buf_set buf k new)
    else
      k <- py_mod (i + j) embedding ;;
      old <- buf_get buf k ;;
      xy <- scalar_mul x y ;;
      new <- scalar_add old xy ;;
      Ok (buf_set buf k new)
  else Ok buf.

(** The two nested [for] loops over [enumerate(self)] and
    [enumerate(other)] of the equal-degree case. *)
Definition mul_loops (embedding : nat) (rt : Fq) (xs ys : list scalar)
    (buf : list scalar) : result (list scalar) :=
  foldM (fun buf ix =>
           foldM (mul_inner_body embedding rt (fst ix) (snd ix)) (enumerate ys) buf)
        (enumerate xs) buf.

(** [FieldExtBase.__mul__].  Against another [Fq2] both degree tests are
    decided by the class attribute: [cls.extension < other.extension] is
    false and [cls.extension == other.extension] is true, so every pass
    of the outer loop runs the inner loop. *)
Definition Fq2_mul (self : Fq2) (other : pyval) : result (outcome Fq2) :=
  match other with
  | PFq2 o =>
      if Fq2_extension <? Fq2_extension then Ok NotImplemented
      else
        buf <- zeros (ext_Q self) (coeffs self) ;;
        buf' <- mul_loops Fq2_embedding (root self) (coeffs self) (coeffs o) buf ;;
        Ok (Value (mkFq2 (ext_Q self) buf' (root self)))
  | PInt n =>
      cs <- mapM (fun a => scalar_mul a (SInt n)) (coeffs self) ;;
      Ok (Value (mkFq2 (ext_Q self) cs (root self)))
  | PFq y =>
      cs <- mapM (fun a => scalar_mul a (SFq y)) (coeffs self) ;;
      Ok (Value (mkFq2 (ext_Q self) cs (root self)))
  end.

(** [Fq2.__invert__]: the norm formula. *)
Definition Fq2_invert (self : Fq2) : result Fq2 :=
  match coeffs self with
  | [a; b] =>
      aa <- scalar_mul a a ;;
      bb <- scalar_mul b b ;;
      n <- scalar_add aa bb ;;
      factor <- scalar_invert n ;;
      c0 <- scalar_mul a factor ;;
      nb <- scalar_neg b ;;
      c1 <- scalar_mul nb factor ;;
      Fq2_new (ext_Q self) [of_scalar c0; of_scalar c1]
  | _ => Raise ValueError
  end.

(** [~v] on an operand. *)
Definition py_invert (v : pyval) : result pyval :=
  match v with
  | PInt n => Ok (PInt (Z.lnot n))
  | PFq x => fmap PFq (Fq_invert x)
  | PFq2 e => fmap PFq2 (Fq2_invert e)
  end.

(** [FieldExtBase.__floordiv__]: [self * ~other]. *)
Definition Fq2_floordiv (self : Fq2) (other : pyval) : result (outcome Fq2) :=
  inv <- py_invert other ;; Fq2_mul self inv.

(** [tuple.__eq__] and [tuple.__lt__]: the first position where the
    items are not [==] decides; otherwise the lengths do. *)
Fixpoint tuple_eq (v w : list scalar) : bool :=
  match v, w with
  | [], [] => true
  | x :: v', y :: w' => scalar_eq x y && tuple_eq v' w'
  | _, _ => false
  end.

Fixpoint tuple_lt (v w : list scalar) : bool :=
  match v, w with
  | [], [] => false
  | [], _ :: _ => true
  | _ :: _, [] => false
  | x :: v', y :: w' => if scalar_eq x y then tuple_lt v' w' else scalar_lt x y
  end.

(** [FieldExtBase.__eq__]. *)
Definition Fq2_eq_lower (self : Fq2) (other : scalar) : result bool :=
  tail_zero <-
    foldM (fun (ok : bool) (i : nat) =>
             if ok then
               c <- buf_get (coeffs self) i ;;
               z <- Fq_zero (ext_Q self) ;;
               Ok (negb (scalar_ne c (SFq z)))
             else Ok false)
          (seq 1 (Fq2_embedding - 1)) true ;;
  if tail_zero then
    c0 <- buf_get (coeffs self) 0 ;; Ok (scalar_eq c0 other)
  else Ok false.

Definition Fq2_eq (self : Fq2) (other : pyval) : result (outcome bool) :=
  match other with
  | PFq2 o =>
      Ok (Value (tuple_eq (coeffs self) (coeffs o) && (ext_Q self =? ext_Q o)))
  | PInt n => fmap Value (Fq2_eq_lower self (SInt n))
  | PFq y => fmap Value (Fq2_eq_lower self (SFq y))
  end.

(** [FieldExtBase.__lt__]: [self[::-1].__lt__(other[::-1])]; slicing is
    a [TypeError] on an [int]. *)
Definition Fq2_lt (self : Fq2) (other : pyval) : result bool :=
  match other with
  | PFq2 o => Ok (tuple_lt (rev (coeffs self)) (rev (coeffs o)))
  | _ => Raise TypeError
  end.

(** [FieldExtBase.__bool__]. *)
Definition Fq2_bool (self : Fq2) : bool := existsb scalar_bool (coeffs self).

(** [FieldExtBase.from_fq], [zero] and [one] for [cls = Fq2]. *)
Definition Fq2_from_fq (q : Z) (fq : Fq) : result Fq2 :=
  y <- Fq_from_fq q fq ;;
  z <- Fq_zero q ;;
  let cs := map (fun i => if (i =? 0)%nat then SFq y else SFq z)
                (seq 0 Fq2_embedding) in
  r <- Fq_new q (-1) ;;
  Ok (mkFq2 q cs r).

Definition Fq2_zero (q : Z) : result Fq2 := z <- Fq_new q 0 ;; Fq2_from_fq q z.
Definition Fq2_one (q : Z) : result Fq2 := o <- Fq_new q 1 ;; Fq2_from_fq q o.

(** ** Special methods of [Fq] on arbitrary operands *)

(** [Fq.__add__], [__sub__], [__mul__]: [NotImplemented] unless
    [isinstance(other, int)]. *)
Definition Fq_add (self : Fq) (other : pyval) : result (outcome Fq) :=
  match as_scalar other with
  | Some s => fmap Value (Fq_add_int self (int_of s))
  | None => Ok NotImplemented
  end.

Definition Fq_sub (self : Fq) (other : pyval) : result (outcome Fq) :=
  match as_scalar other with
  | Some s => fmap Value (Fq_sub_int self (int_of s))
  | None => Ok NotImplemented
  end.

Definition Fq_mul (self : Fq) (other : pyval) : result (outcome Fq) :=
  match as_scalar other with
  | Some s => fmap Value (Fq_mul_int self (int_of s))
  | None => Ok NotImplemented
  end.

(** [Fq.__eq__]: [int.__eq__] unless [other] is an [Fq]; [int.__eq__]
    does not know tuples. *)
Definition Fq_eq (self : Fq) (other : pyval) : outcome bool :=
  match other with
  | PInt n => Value (val self =? n)
  | PFq y => Value ((val self =? val y) && (Q self =? Q y))
  | PFq2 _ => NotImplemented
  end.

(** The expression [self * v] for an [Fq] on the left: [Fq.__mul__], and
    when that declines, the reflected [Fq2.__rmul__], which is
    [Fq2.__mul__(v, self)]. *)
Definition Fq_times (self : Fq) (v : pyval) : result pyval :=
  r <- Fq_mul self v ;;
  match r, v with
  | Value x, _ => Ok (PFq x)
  | NotImplemented, PFq2 e =>
      r' <- Fq2_mul e (PFq self) ;;
      match r' with
      | Value e' => Ok (PFq2 e')
      | NotImplemented => Raise TypeError
      end
  | NotImplemented, _ => Raise TypeError
  end.

(** [Fq.__floordiv__] (and [__truediv__]): a plain [int] is first
    lifted with [Fq(self.Q, other)]; then [self * ~other]. *)
Definition Fq_floordiv (self : Fq) (other : pyval) : result pyval :=
  other' <- match other with
            | PInt n => fmap PFq (Fq_new (Q self) n)
            | _ => Ok other
            end ;;
  inv <- py_invert other' ;;
  Fq_times self inv.

(** [canonical x]: the invariant [0 <= value < modulus]. *)
Definition canonical (x : Fq) : Prop := 0 <= val x < Q x.

(** The right operand of a prime-field operation: a plain integer, or an
    element that satisfies the invariant (over any modulus). *)
Definition field_operand (v : pyval) : Prop :=
  match v with
  | PInt _ => True
  | PFq y => canonical y
  | PFq2 _ => False
  end.

(** ** Vocabulary of the multiplication contract *)

(** What the multiplication contract says slot [k] receives from the
    pair of positions [(i, j)]: the product of the two coefficients when
    [(i + j) % embedding] is [k], scaled by [root] when the degree
    overflows, and nothing otherwise. *)
Definition conv_term (embedding : nat) (r : Z) (k : nat)
    (ix jy : nat * scalar) : Z :=
  if ((fst ix + fst jy) mod embedding =? k)%nat then
    if (embedding <=? fst ix + fst jy)%nat
    then int_of (snd ix) * int_of (snd jy) * r
    else int_of (snd ix) * int_of (snd jy)
  else 0.

Definition sumZ {A : Type} (f : A -> Z) (l : list A) : Z :=
  fold_right (fun a acc => f a + acc) 0 l.

(** The sum over all pairs of positions of the two operands. *)
Definition conv_coeff (embedding : nat) (r : Z) (xs ys : list scalar) (k : nat) : Z :=
  sumZ (fun ix => sumZ (conv_term embedding r k ix) (enumerate ys)) (enumerate xs).

(** A buffer of [Fq] elements over [q], seen through unreduced integer
    accumulators. *)
Definition red (q v : Z) : scalar := SFq (mkFq q (v mod q)).
Definition reduce (q : Z) (vs : list Z) : list scalar := map (red q) vs.

Fixpoint acc_add (vs : list Z) (k : nat) (t : Z) : list Z :=
  match vs, k with
  | [], _ => []
  | v :: vs', O => (v + t) :: vs'
  | v :: vs', S k' => v :: acc_add vs' k' t
  end.

(** The term the loop body adds for the pair [(i, x)], [(j, y)]. *)
Definition body_term (embedding : nat) (rt : Fq) (i : nat) (x : Fq)
    (jy : nat * scalar) : Z :=
  if (embedding <=? i + fst jy)%nat
  then val x * int_of (snd jy) * val rt
  else val x * int_of (snd jy).

(** The inner loop and the two nested loops, on the accumulators. *)
Definition inner_acc (embedding : nat) (rt : Fq) (i : nat) (x : Fq)
    (vs : list Z) (js : list (nat * scalar)) : list Z :=
  fold_left (fun vs jy =>
               acc_add vs ((i + fst jy) mod embedding)
                       (body_term embedding rt i x jy))
            js vs.

Definition outer_acc (embedding : nat) (rt : Fq) (ys : list scalar)
    (vs : list Z) (ixs : list (nat * scalar)) : list Z :=
  fold_left (fun vs ix =>
               match snd ix with
               | SFq x => inner_acc embedding rt (fst ix) x vs (enumerate ys)
               | SInt _ => vs
               end) ixs vs.

(** A coefficient that is an [Fq] over [q]. *)
Definition over_q (q : Z) (s : scalar) : Prop := exists x, s = SFq x /\ Q x = q.

(** The element [Fq2(q, a, b)] builds from two raw integers. *)
Definition fq2_of_ints (q a b : Z) : Fq2 :=
  mkFq2 q [red q a; red q b] (mkFq q ((-1) mod q)).

(** Congruence modulo [q]: nested reductions [(.. mod q ..) mod q] are
    removed by rewriting under it, after which [ring] compares the
    residues. *)
Definition congr (q a b : Z) : Prop := a mod q = b mod q.

(** ** Reflected methods, copies and exponentiation in the extension *)

(** [Fq.__radd__], [Fq.__rsub__] and [Fq.__rmul__]. *)
Definition Fq_radd (self : Fq) (other : pyval) : result (outcome Fq) :=
  match as_scalar other with
  | Some _ => Fq_add self other
  | None => Ok NotImplemented
  end.

Definition Fq_rsub (self : Fq) (other : pyval) : result (outcome Fq) :=
  match as_scalar other with
  | Some s => fmap Value (Fq_rsub_int self (int_of s))
  | None => Ok NotImplemented
  end.

Definition Fq_rmul (self : Fq) (other : pyval) : result (outcome Fq) :=
  Fq_mul self other.

(** [Fq.__deepcopy__]: [Fq(self.Q, int(self))]. *)
Definition Fq_deepcopy (self : Fq) : result Fq := Fq_new (Q self) (val self).

(** [deepcopy(a, memo)] on a coefficient: an [int] is atomic, an [Fq]
    answers with its [__deepcopy__]. *)
Definition scalar_deepcopy (s : scalar) : result scalar :=
  match s with
  | SInt n => Ok (SInt n)
  | SFq x => fmap SFq (Fq_deepcopy x)
  end.

(** [FieldExtBase.__deepcopy__]. *)
Definition Fq2_deepcopy (self : Fq2) : result Fq2 :=
  cs <- mapM scalar_deepcopy (coeffs self) ;;
  Ok (mkFq2 (ext_Q self) cs (root self)).

(** [FieldExtBase.set_root]. *)
Definition Fq2_set_root (self : Fq2) (r : Fq) : Fq2 :=
  mkFq2 (ext_Q self) (coeffs self) r.

(** An operator whose last candidate method answered [NotImplemented]
    raises [TypeError]. *)
Definition unwrap {A : Type} (r : outcome A) : result A :=
  match r with
  | Value a => Ok a
  | NotImplemented => Raise TypeError
  end.

(** The expressions [u + v], [u - v] and [u * v] on operands:
    Python calls the left operand's method, except that a right operand
    whose class is a subclass of the left one's ([Fq] under [int]) goes
    first with its reflected method; when the first method declines, the
    other operand's reflected method is tried.  [FieldExtBase.__radd__]
    and [__rmul__] forward to [__add__] and [__mul__], and
    [FieldExtBase.__rsub__] is [(-self) + other]. *)
Definition py_add (u v : pyval) : result pyval :=
  match u, v with
  | PInt n, PInt m => Ok (PInt (n + m))
  | PInt n, PFq y => r <- Fq_radd y (PInt n) ;; fmap PFq (unwrap r)
  | PInt n, PFq2 e => r <- Fq2_add e (PInt n) ;; fmap PFq2 (unwrap r)
  | PFq x, PFq2 e =>
      r <- Fq_add x v ;;
      match r with
      | Value s => Ok (PFq s)
      | NotImplemented => r' <- Fq2_add e (PFq x) ;; fmap PFq2 (unwrap r')
      end
  | PFq x, _ => r <- Fq_add x v ;; fmap PFq (unwrap r)
  | PFq2 e, _ => r <- Fq2_add e v ;; fmap PFq2 (unwrap r)
  end.

Definition py_mul (u v : pyval) : result pyval :=
  match u, v with
  | PInt n, PInt m => Ok (PInt (n * m))
  | PInt n, PFq y => r <- Fq_rmul y (PInt n) ;; fmap PFq (unwrap r)
  | PInt n, PFq2 e => r <- Fq2_mul e (PInt n) ;; fmap PFq2 (unwrap r)
  | PFq x, _ => Fq_times x v
  | PFq2 e, _ => r <- Fq2_mul e v ;; fmap PFq2 (unwrap r)
  end.

(** [FieldExtBase.__rsub__]. *)
Definition Fq2_rsub (self : Fq2) (other : pyval) : result pyval :=
  n <- Fq2_neg self ;; py_add (PFq2 n) other.

Definition py_sub (u v : pyval) : result pyval :=
  match u, v with
  | PInt n, PInt m => Ok (PInt (n - m))
  | PInt n, PFq y => r <- Fq_rsub y (PInt n) ;; fmap PFq (unwrap r)
  | PInt n, PFq2 e => Fq2_rsub e (PInt n)
  | PFq x, PFq2 e =>
      r <- Fq_sub x v ;;
      match r with
      | Value s => Ok (PFq s)
      | NotImplemented => Fq2_rsub e (PFq x)
      end
  | PFq x, _ => r <- Fq_sub x v ;; fmap PFq (unwrap r)
  | PFq2 e, _ => r <- Fq2_sub e v ;; fmap PFq2 (unwrap r)
  end.

(** The [while e:] loop of [FieldExtBase.__pow__] on [(ans, base, e)].
    The loop is entered behind [assert e >= 0], where [while e] is
    [while e > 0]; [e >> 1] is then smaller than [e]. *)
Equations? Fq2_pow_loop (ans base : Fq2) (e : Z) : result Fq2
  by wf (Z.to_nat e) lt :=
  Fq2_pow_loop ans base e with Z_lt_dec 0 e := {
    | right _ => Ok ans
    | left _ =>
        ans' <- (if Z.land e 1 =? 0 then Ok ans
                 else r <- Fq2_mul ans (PFq2 base) ;; unwrap r) ;;
        base' <- (r <- Fq2_mul base (PFq2 base) ;; unwrap r) ;;
        Fq2_pow_loop ans' base' (Z.shiftr e 1) }.
Proof.
  all: rewrite Z.shiftr_div_pow2 by lia;
    change (2 ^ 1) with 2;
    assert (0 <= e / 2 < e) by (Z.div_mod_to_equations; lia); lia.
Qed.

(** [FieldExtBase.__pow__]. *)
Definition Fq2_pow (self : Fq2) (e : Z) : result Fq2 :=
  if e <? 0 then Raise AssertionError
  else
    one <- Fq2_one (ext_Q self) ;;
    Fq2_pow_loop (Fq2_set_root one (root self)) self e.

(** Gaussian integers, the reference for products and powers in [Fq2]:
    pairs [(a, b)] standing for [a + b i] with [i^2 = -1]. *)
Definition gmul (x y : Z * Z) : Z * Z :=
  (fst x * fst y - snd x * snd y, fst x * snd y + snd x * fst y).

Fixpoint gpow (x : Z * Z) (n : nat) : Z * Z :=
  match n with
  | O => (1, 0)
  | S n' => gmul x (gpow x n')
  end.

(** An element as [Fq2(q, a, b)] builds it from integers. *)
Definition built_over (q : Z) (e : Fq2) : Prop :=
  exists a b, Fq2_new q [PInt a; PInt b] = Ok e.

(** * Properties *)

(** ** Sanity checks on concrete inputs *)

Example ex_add : Fq_add (mkFq 13 5) (PFq (mkFq 13 10)) = Ok (Value (mkFq 13 2)).
Proof. reflexivity. Qed.

Example ex_invert_5 : Fq_invert (mkFq 13 5) = Ok (mkFq 13 8).
Proof. reflexivity. Qed.

Example ex_pow_fermat : Fq_pow (mkFq 13 2) 12 = Fq_one 13.
Proof. reflexivity. Qed.

Example ex_negative_modulus : Fq_new (-13) 5 = Ok (mkFq (-13) (-8)).
Proof. reflexivity. Qed.

(** ** The error monad *)

Lemma Ok_inj {A : Type} (a b : A) : Ok a = Ok b -> a = b.
Proof. congruence. Qed.

(** ** Construction and the ring operations of [Fq] *)

Lemma Fq_new_ok (q x : Z) : q <> 0 -> Fq_new q x = Ok (mkFq q (x mod q)).
Proof.
  intros Hq. unfold Fq_new.
  destruct (Z.eqb_spec q 0); [contradiction | reflexivity].
Qed.

Lemma Fq_new_canonical (q x : Z) : 0 < q -> canonical (mkFq q (x mod q)).
Proof. intros Hq. unfold canonical; simpl. apply Z.mod_pos_bound, Hq. Qed.

Lemma canonical_modulus_pos (x : Fq) : canonical x -> 0 < Q x.
Proof. unfold canonical. lia. Qed.

Lemma Fq_eq_intro (x y : Fq) : Q x = Q y -> val x = val y -> x = y.
Proof. destruct x, y; simpl; intros -> ->; reflexivity. Qed.

(** ** The Euclidean loop *)

(** On non-negative inputs the loop ends with [a = 0], [b] the gcd of
    the inputs, and Bezout coefficients for [b] in [x0] and [y0]. *)
Lemma invert_loop_spec (V M a b x0 x1 y0 y1 : Z) :
  0 <= a -> 0 <= b ->
  b = x0 * V + y0 * M ->
  a = x1 * V + y1 * M ->
  let st := invert_loop a b x0 x1 y0 y1 in
  st_a st = 0 /\ st_b st = Z.gcd a b /\ st_b st = st_x0 st * V + st_y0 st * M.
Proof.
  funelim (invert_loop a b x0 x1 y0 y1); intros Ha Hb Eb Ea; simpl.
  - subst a. rewrite Z.gcd_0_l, Z.abs_eq by assumption. auto.
  - clear Heqcall.
    assert (Hpos : 0 < a) by lia.
    pose proof (Z.mod_pos_bound b a Hpos) as Hm.
    pose proof (Z.div_mod b a ltac:(lia)) as Hdm.
    match goal with
    | IH : forall V M : Z, _ |- _ =>
        assert (Hstep : b mod a
                        = (x0 - b / a * x1) * V + (y0 - b / a * y1) * M) by nia;
        destruct (IH V M ltac:(lia) Ha Ea Hstep) as (Hsa & Hsb & Hbz)
    end.
    repeat split; try assumption.
    rewrite Hsb, Z.gcd_mod by lia. reflexivity.
Qed.

(** The loop, one test at a time. *)
Lemma invert_loop_exit (b x0 x1 y0 y1 : Z) :
  invert_loop 0 b x0 x1 y0 y1 = mkState 0 b x0 x1 y0 y1.
Proof. simp invert_loop. reflexivity. Qed.

Lemma invert_loop_iter (a b x0 x1 y0 y1 : Z) :
  a <> 0 ->
  invert_loop a b x0 x1 y0 y1
  = invert_loop (b mod a) a x1 (x0 - (b / a) * x1) y1 (y0 - (b / a) * y1).
Proof.
  intros Ha. rewrite invert_loop_equation_1 at 1.
  destruct (Z.eq_dec a 0) as [E | N]; [contradiction | reflexivity].
Qed.

(** With a zero value the loop runs exactly once. *)
Lemma invert_loop_zero (q : Z) :
  q <> 0 -> invert_loop q 0 1 0 0 1 = mkState 0 q 0 1 1 0.
Proof.
  intros Hq. rewrite invert_loop_iter by assumption.
  rewrite Z.mod_0_l, Z.div_0_l by assumption.
  apply invert_loop_exit.
Qed.

(** ** Inversion in [Fq] *)

Lemma prime_13 : Z.prime 13.
Proof.
  split; [lia |]. intros n Hn [z Hz].
  assert (Hc : n = 2 \/ n = 3 \/ n = 4 \/ n = 5 \/ n = 6 \/ n = 7 \/
               n = 8 \/ n = 9 \/ n = 10 \/ n = 11 \/ n = 12) by lia.
  repeat (destruct Hc as [-> | Hc]; [lia |]). lia.
Qed.

Lemma Fq_invert_unfold (self : Fq) :
  Fq_invert self
  = Fq_new (Q self) (st_x0 (invert_loop (Q self) (val self) 1 0 0 1)).
Proof. reflexivity. Qed.

Lemma Fq_invert_zero (q : Z) : q <> 0 -> Fq_invert (mkFq q 0) = Ok (mkFq q 0).
Proof.
  intros Hq. rewrite Fq_invert_unfold; simpl.
  rewrite invert_loop_zero by assumption; simpl.
  rewrite Fq_new_ok by assumption. rewrite Z.mod_0_l by assumption. reflexivity.
Qed.

(** Bezout: on a unit of [Z/q] the loop leaves in [x0] an integer whose
    product with the value is [1] modulo [q]. *)
Lemma invert_loop_bezout (q v : Z) :
  Z.prime q -> 0 < v < q ->
  (v * st_x0 (invert_loop q v 1 0 0 1)) mod q = 1.
Proof.
  intros Hp Hv.
  pose proof (Z.prime_ge_2 q Hp) as Hq2.
  destruct (invert_loop_spec v q q v 1 0 0 1) as (_ & Hg & Hz); try lia.
  assert (Hgcd : Z.gcd q v = 1).
  { apply (Z.coprime_prime_small q v Hp). lia. }
  rewrite Hg, Hgcd in Hz.
  set (x0 := st_x0 (invert_loop q v 1 0 0 1)) in *.
  set (y0 := st_y0 (invert_loop q v 1 0 0 1)) in *.
  replace (v * x0) with (1 + (- y0) * q) by lia.
  rewrite Z.mod_add by lia. apply Z.mod_small. lia.
Qed.

Lemma Fq_invert_ok (a : Fq) :
  Z.prime (Q a) -> canonical a -> val a <> 0 ->
  exists i, Fq_invert a = Ok i /\ Q i = Q a /\ canonical i /\
            (val a * val i) mod Q a = 1.
Proof.
  intros Hp Hc Hnz. pose proof (Z.prime_ge_2 _ Hp) as Hq2.
  unfold canonical in Hc.
  exists (mkFq (Q a) (st_x0 (invert_loop (Q a) (val a) 1 0 0 1) mod Q a)).
  rewrite Fq_invert_unfold, Fq_new_ok by lia.
  repeat split; simpl; try (apply Z.mod_pos_bound; lia).
  rewrite Z.mul_mod_idemp_r by lia.
  apply invert_loop_bezout; [assumption | lia].
Qed.

(** Inverses modulo [q] are unique among canonical residues. *)
Lemma inverse_mod_unique (q v i j : Z) :
  0 < q -> 0 <= i < q -> 0 <= j < q ->
  (v * i) mod q = 1 -> (v * j) mod q = 1 -> i = j.
Proof.
  intros Hq Hi Hj Ei Ej.
  assert (E : (i * (v * j)) mod q = (j * (v * i)) mod q)
    by (f_equal; ring).
  rewrite <- Z.mul_mod_idemp_r, Ej in E by lia.
  rewrite <- (Z.mul_mod_idemp_r j), Ei in E by lia.
  rewrite !Z.mul_1_r, !Z.mod_small in E by lia.
  exact E.
Qed.

Lemma Fq_mul_Fq (a y : Fq) :
  Q a <> 0 -> Fq_mul a (PFq y) = Ok (Value (mkFq (Q a) ((val a * val y) mod Q a))).
Proof.
  intros Hq. unfold Fq_mul, Fq_mul_int; simpl.
  rewrite Fq_new_ok by assumption. reflexivity.
Qed.

Lemma Fq_one_ok (q : Z) : 1 < q -> Fq_one q = Ok (mkFq q 1).
Proof.
  intros Hq. unfold Fq_one. rewrite Fq_new_ok by lia.
  rewrite Z.mod_small by lia. reflexivity.
Qed.

(** C2 (amended): inverting the additive identity of the prime field does
    not fail; the Euclidean loop runs once and the call returns the
    additive identity itself, for every nonzero modulus. *)
Theorem Fq_invert_zero_returns_zero (q : Z) :
  q <> 0 ->
  exists z, Fq_zero q = Ok z /\ val z = 0 /\
            Fq_invert z = Ok z /\ ~ raises (Fq_invert z).
Proof.
  intros Hq. exists (mkFq q 0).
  unfold Fq_zero. rewrite Fq_new_ok, Z.mod_0_l by assumption.
  rewrite Fq_invert_zero by assumption.
  repeat split. intros H; exact H.
Qed.

Lemma Fq_invert_zero_returns_zero_witness :
  13 <> 0 /\
  exists z, Fq_zero 13 = Ok z /\ val z = 0 /\
            Fq_invert z = Ok z /\ ~ raises (Fq_invert z).
Proof.
  split; [lia | apply (Fq_invert_zero_returns_zero 13); lia].
Defined.

(** C2 as stated fails: [Fq(13, 0).__invert__()] returns [Fq(13, 0)]
    and raises nothing. *)
Lemma Fq_invert_13_0_not_an_error :
  Fq_zero 13 = Ok (mkFq 13 0) /\
  Fq_invert (mkFq 13 0) = Ok (mkFq 13 0) /\
  ~ raises (Fq_invert (mkFq 13 0)).
Proof.
  repeat split. vm_compute. intros H; exact H.
Qed.

(** C3: for a nonzero canonical element [a] over a prime modulus,
    [~a] succeeds with a canonical element over the same modulus,
    [a * ~a] is [one], [~a] is the only canonical element with that
    property, and [~~a] is [a]. *)
Theorem Fq_invert_is_inverse (a : Fq) :
  Z.prime (Q a) -> canonical a -> val a <> 0 ->
  exists i,
    Fq_invert a = Ok i /\ Q i = Q a /\ canonical i /\
    Fq_mul a (PFq i) = fmap Value (Fq_one (Q a)) /\
    (forall y, Q y = Q a -> canonical y ->
               Fq_mul a (PFq y) = fmap Value (Fq_one (Q a)) -> y = i) /\
    Fq_invert i = Ok a.
Proof.
  intros Hp Hc Hnz. pose proof (Z.prime_ge_2 _ Hp) as Hq2.
  destruct (Fq_invert_ok a Hp Hc Hnz) as (i & Ei & Qi & Ci & Mi).
  exists i. rewrite Fq_one_ok by lia. simpl.
  repeat split; try assumption; try apply Ci.
  - rewrite Fq_mul_Fq, Mi by lia. reflexivity.
  - intros y Qy Cy Ey. rewrite Fq_mul_Fq in Ey by lia.
    apply Ok_inj in Ey. injection Ey as Ey.
    unfold canonical in *.
    apply Fq_eq_intro; [congruence |].
    apply (inverse_mod_unique (Q a) (val a)); try lia; assumption.
  - assert (Hinz : val i <> 0).
    { intros E. rewrite E, Z.mul_0_r, Z.mod_0_l in Mi by lia. discriminate. }
    assert (Hpi : Z.prime (Q i)) by (rewrite Qi; assumption).
    destruct (Fq_invert_ok i Hpi Ci Hinz) as (j & Ej & Qj & Cj & Mj).
    rewrite Ej. f_equal. unfold canonical in *.
    apply Fq_eq_intro; [congruence |].
    rewrite Qj in Cj. rewrite Qi in Mj, Cj, Ci.
    apply (inverse_mod_unique (Q a) (val i)); try lia.
    rewrite Z.mul_comm. exact Mi.
Qed.

Lemma Fq_invert_is_inverse_witness :
  exists i,
    Fq_invert (mkFq 13 5) = Ok i /\ Q i = 13 /\ canonical i /\
    Fq_mul (mkFq 13 5) (PFq i) = fmap Value (Fq_one 13) /\
    (forall y, Q y = 13 -> canonical y ->
               Fq_mul (mkFq 13 5) (PFq y) = fmap Value (Fq_one 13) -> y = i) /\
    Fq_invert i = Ok (mkFq 13 5).
Proof.
  apply (Fq_invert_is_inverse (mkFq 13 5)).
  - exact prime_13.
  - unfold canonical; simpl; lia.
  - simpl; lia.
Defined.

(** ** Exponentiation in [Fq] *)

Lemma Fq_mul_int_ok (self : Fq) (n : Z) :
  Q self <> 0 ->
  Fq_mul_int self n = Ok (mkFq (Q self) ((val self * n) mod Q self)).
Proof. intros Hq. unfold Fq_mul_int. apply Fq_new_ok, Hq. Qed.

(** The branches of [Fq.__pow__], one test at a time. *)
Lemma Fq_pow_zero (self : Fq) : Fq_pow self 0 = Fq_new (Q self) 1.
Proof. rewrite Fq_pow_equation_1. reflexivity. Qed.

Lemma Fq_pow_one (self : Fq) : Fq_pow self 1 = Ok self.
Proof. rewrite Fq_pow_equation_1. reflexivity. Qed.

Lemma Fq_pow_negative (self : Fq) (e : Z) :
  e < 0 -> Fq_pow self e = Raise RecursionError.
Proof.
  intros He. rewrite Fq_pow_equation_1.
  destruct (Z.eq_dec e 0) as [E | N0]; [lia |]; simpl.
  destruct (Z.eq_dec e 1) as [E | N1]; [lia |]; simpl.
  destruct (Z_lt_dec e 0) as [E | N2]; [reflexivity | lia].
Qed.

Lemma Fq_pow_even (self : Fq) (e : Z) :
  2 <= e -> e mod 2 = 0 ->
  Fq_pow self e = (sq <- Fq_mul_int self (val self) ;; Fq_pow sq (e / 2)).
Proof.
  intros He Hm. rewrite Fq_pow_equation_1 at 1.
  destruct (Z.eq_dec e 0) as [E | N0]; [lia |]; simpl.
  destruct (Z.eq_dec e 1) as [E | N1]; [lia |]; simpl.
  destruct (Z_lt_dec e 0) as [E | N2]; [lia |]; simpl.
  destruct (Z.eq_dec (e mod 2) 0) as [E | N3]; [reflexivity | contradiction].
Qed.

Lemma Fq_pow_odd (self : Fq) (e : Z) :
  2 <= e -> e mod 2 <> 0 ->
  Fq_pow self e
  = (sq <- Fq_mul_int self (val self) ;;
     r <- Fq_pow sq (e / 2) ;;
     Fq_mul_int r (val self)).
Proof.
  intros He Hm. rewrite Fq_pow_equation_1 at 1.
  destruct (Z.eq_dec e 0) as [E | N0]; [lia |]; simpl.
  destruct (Z.eq_dec e 1) as [E | N1]; [lia |]; simpl.
  destruct (Z_lt_dec e 0) as [E | N2]; [lia |]; simpl.
  destruct (Z.eq_dec (e mod 2) 0) as [E | N3]; [contradiction | reflexivity].
Qed.

(** The recursion returns on every non-negative exponent and keeps the
    modulus; started on a canonical element it ends on one.  Induction
    on the exponent, the hypothesis being used at [e / 2]. *)
Lemma Fq_pow_ok (e : Z) :
  0 <= e ->
  forall self, Q self <> 0 ->
    exists r, Fq_pow self e = Ok r /\ Q r = Q self /\
              (canonical self -> canonical r).
Proof.
  intros He. pattern e. apply Zlt_0_ind; [clear e He | exact He].
  intros e IH He self Hq.
  destruct (Z.eq_dec e 0) as [-> | N0].
  { rewrite Fq_pow_zero, Fq_new_ok by assumption.
    eexists. split; [reflexivity | split; [reflexivity |]].
    intros Hc. apply Fq_new_canonical, canonical_modulus_pos, Hc. }
  destruct (Z.eq_dec e 1) as [-> | N1].
  { rewrite Fq_pow_one. exists self. auto. }
  assert (Hhalf : 0 <= e / 2 < e) by (Z.div_mod_to_equations; lia).
  set (sq := mkFq (Q self) ((val self * val self) mod Q self)).
  destruct (IH (e / 2) Hhalf sq Hq) as (r & Er & Qr & Cr).
  assert (Csq : canonical self -> canonical sq).
  { intros Hc. apply Fq_new_canonical, canonical_modulus_pos, Hc. }
  destruct (Z.eq_dec (e mod 2) 0) as [Hm | Hm].
  - rewrite Fq_pow_even by lia.
    rewrite Fq_mul_int_ok by assumption. cbn [bind]. fold sq.
    exists r. split; [exact Er | split; [exact Qr | auto]].
  - rewrite Fq_pow_odd by lia.
    rewrite Fq_mul_int_ok by assumption. cbn [bind]. fold sq.
    rewrite Er. cbn [bind]. simpl in Qr.
    rewrite Fq_mul_int_ok by congruence.
    eexists. split; [reflexivity | split; [exact Qr |]].
    intros Hc. rewrite Qr. apply Fq_new_canonical, canonical_modulus_pos, Hc.
Qed.

(** C9: for every element (its modulus is nonzero by construction) and
    every exponent [e >= 0], [pow] returns.  [e = 0] gives [one],
    [e = 1] gives the element itself, an even [e >= 2] is the power
    [e // 2] of [self * self], an odd [e >= 3] is that power times
    [self], and the halved exponent is smaller and still non-negative. *)
Theorem Fq_pow_total (self : Fq) (e : Z) :
  Q self <> 0 -> 0 <= e ->
  (exists r, Fq_pow self e = Ok r) /\
  Fq_pow self 0 = Fq_one (Q self) /\
  Fq_pow self 1 = Ok self /\
  (2 <= e -> e mod 2 = 0 ->
   Fq_pow self e = (sq <- Fq_mul_int self (val self) ;; Fq_pow sq (e / 2))) /\
  (2 <= e -> e mod 2 <> 0 ->
   Fq_pow self e = (sq <- Fq_mul_int self (val self) ;;
                    r <- Fq_pow sq (e / 2) ;;
                    Fq_mul_int r (val self))) /\
  (2 <= e -> 0 <= e / 2 < e).
Proof.
  intros Hq He.
  destruct (Fq_pow_ok e He self Hq) as (r & Er & _).
  split; [exists r; exact Er |].
  split; [apply Fq_pow_zero |].
  split; [apply Fq_pow_one |].
  split; [apply Fq_pow_even |].
  split; [apply Fq_pow_odd |].
  intros H2. Z.div_mod_to_equations. lia.
Qed.

Lemma Fq_pow_total_witness :
  (exists r, Fq_pow (mkFq 13 2) 12 = Ok r) /\
  Fq_pow (mkFq 13 2) 0 = Fq_one 13 /\
  Fq_pow (mkFq 13 2) 1 = Ok (mkFq 13 2) /\
  (2 <= 12 -> 12 mod 2 = 0 ->
   Fq_pow (mkFq 13 2) 12
   = (sq <- Fq_mul_int (mkFq 13 2) 2 ;; Fq_pow sq (12 / 2))) /\
  (2 <= 12 -> 12 mod 2 <> 0 ->
   Fq_pow (mkFq 13 2) 12
   = (sq <- Fq_mul_int (mkFq 13 2) 2 ;;
      r <- Fq_pow sq (12 / 2) ;;
      Fq_mul_int r 2)) /\
  (2 <= 12 -> 0 <= 12 / 2 < 12).
Proof.
  apply (Fq_pow_total (mkFq 13 2) 12); simpl; lia.
Defined.

(** ** The range invariant of [Fq] *)

Lemma Fq_new_result (q z : Z) :
  0 < q -> exists r, Fq_new q z = Ok r /\ Q r = q /\ canonical r.
Proof.
  intros Hq. rewrite Fq_new_ok by lia.
  eexists. split; [reflexivity | split; [reflexivity |]].
  apply Fq_new_canonical, Hq.
Qed.

Lemma Fq_invert_canonical (self : Fq) :
  canonical self ->
  exists r, Fq_invert self = Ok r /\ Q r = Q self /\ canonical r.
Proof.
  intros Hc. rewrite Fq_invert_unfold.
  apply Fq_new_result, canonical_modulus_pos, Hc.
Qed.

(** C7: construction over a positive modulus, and [neg], [add], [sub],
    [mul], [pow], [invert] and [div] on elements that satisfy the
    invariant, all return an element whose value lies in
    [[0, modulus)]. *)
Theorem Fq_value_in_range (q n : Z) (self : Fq) (other : pyval) (e : Z) :
  0 < q -> canonical self -> field_operand other -> 0 <= e ->
  (exists x, Fq_new q n = Ok x /\ Q x = q /\ canonical x) /\
  (exists r, Fq_neg self = Ok r /\ Q r = Q self /\ canonical r) /\
  (exists r, Fq_add self other = Ok (Value r) /\ Q r = Q self /\ canonical r) /\
  (exists r, Fq_sub self other = Ok (Value r) /\ Q r = Q self /\ canonical r) /\
  (exists r, Fq_mul self other = Ok (Value r) /\ Q r = Q self /\ canonical r) /\
  (exists r, Fq_pow self e = Ok r /\ Q r = Q self /\ canonical r) /\
  (exists r, Fq_invert self = Ok r /\ Q r = Q self /\ canonical r) /\
  (exists r, Fq_floordiv self other = Ok (PFq r) /\ Q r = Q self /\ canonical r).
Proof.
  intros Hq Hc Ho He.
  pose proof (canonical_modulus_pos _ Hc) as Hqs.
  assert (Hnz : Q self <> 0) by lia.
  assert (Hbin : forall z, exists r,
             fmap (@Value Fq) (Fq_new (Q self) z) = Ok (Value r) /\
             Q r = Q self /\ canonical r).
  { intros z. destruct (Fq_new_result (Q self) z Hqs) as (r & Er & Hr).
    exists r. rewrite Er. split; [reflexivity | exact Hr]. }
  repeat apply conj.
  - apply Fq_new_result, Hq.
  - apply Fq_new_result, Hqs.
  - destruct other as [m | y | o]; try contradiction; apply Hbin.
  - destruct other as [m | y | o]; try contradiction; apply Hbin.
  - destruct other as [m | y | o]; try contradiction; apply Hbin.
  - destruct (Fq_pow_ok e He self Hnz) as (r & Er & Qr & Cr). eauto.
  - apply Fq_invert_canonical, Hc.
  - assert (Hdiv : forall y, canonical y -> exists r,
               (inv <- py_invert (PFq y) ;; Fq_times self inv) = Ok (PFq r) /\
               Q r = Q self /\ canonical r).
    { intros y Cy. destruct (Fq_invert_canonical y Cy) as (i & Ei & _ & _).
      simpl. rewrite Ei; simpl. unfold Fq_times, Fq_mul; simpl.
      destruct (Fq_new_result (Q self) (val self * val i) Hqs) as (r & Er & Hr).
      unfold Fq_mul_int. rewrite Er; simpl. exists r. split; [reflexivity | exact Hr]. }
    destruct other as [m | y | o]; try contradiction; unfold Fq_floordiv.
    + rewrite Fq_new_ok by assumption. simpl bind at 1.
      apply Hdiv, Fq_new_canonical, Hqs.
    + simpl bind at 1. apply Hdiv, Ho.
Qed.

Lemma Fq_value_in_range_witness :
  (exists x, Fq_new 13 (-7) = Ok x /\ Q x = 13 /\ canonical x) /\
  (exists r, Fq_neg (mkFq 13 5) = Ok r /\ Q r = 13 /\ canonical r) /\
  (exists r, Fq_add (mkFq 13 5) (PFq (mkFq 17 10)) = Ok (Value r) /\
             Q r = 13 /\ canonical r) /\
  (exists r, Fq_sub (mkFq 13 5) (PFq (mkFq 17 10)) = Ok (Value r) /\
             Q r = 13 /\ canonical r) /\
  (exists r, Fq_mul (mkFq 13 5) (PFq (mkFq 17 10)) = Ok (Value r) /\
             Q r = 13 /\ canonical r) /\
  (exists r, Fq_pow (mkFq 13 5) 7 = Ok r /\ Q r = 13 /\ canonical r) /\
  (exists r, Fq_invert (mkFq 13 5) = Ok r /\ Q r = 13 /\ canonical r) /\
  (exists r, Fq_floordiv (mkFq 13 5) (PFq (mkFq 17 10)) = Ok (PFq r) /\
             Q r = 13 /\ canonical r).
Proof.
  apply (Fq_value_in_range 13 (-7) (mkFq 13 5) (PFq (mkFq 17 10)) 7);
    unfold field_operand, canonical; simpl; lia.
Defined.

(** ** Equality of an [Fq] with a plain integer *)

(** C10: against a plain integer [n], [Fq.__eq__] answers [True] exactly
    when [n] is the element's value; the modulus is not consulted, so
    the answer is the same whatever modulus carries that value. *)
Theorem Fq_eq_plain_int (x : Fq) (n : Z) :
  (Fq_eq x (PInt n) = Value true <-> n = val x) /\
  (Fq_eq x (PInt n) = Value false <-> n <> val x) /\
  (forall q', Fq_eq (mkFq q' (val x)) (PInt n) = Fq_eq x (PInt n)).
Proof.
  unfold Fq_eq; simpl. repeat split.
  - intros H. injection H as H. apply Z.eqb_eq in H. lia.
  - intros ->. rewrite Z.eqb_refl. reflexivity.
  - intros H. injection H as H. apply Z.eqb_neq in H. lia.
  - intros H. f_equal. apply Z.eqb_neq. lia.
Qed.

(** ** Congruence modulo [q] *)

#[global] Instance congr_equivalence (q : Z) : Equivalence (congr q).
Proof.
  unfold congr. split.
  - intros a. reflexivity.
  - intros a b H. symmetry. exact H.
  - intros a b c H1 H2. congruence.
Qed.

#[global] Instance congr_add (q : Z) :
  Proper (congr q ==> congr q ==> congr q) Z.add.
Proof.
  unfold congr. intros a a' Ha b b' Hb.
  rewrite (Zplus_mod a), (Zplus_mod a'), Ha, Hb. reflexivity.
Qed.

#[global] Instance congr_sub (q : Z) :
  Proper (congr q ==> congr q ==> congr q) Z.sub.
Proof.
  unfold congr. intros a a' Ha b b' Hb.
  rewrite (Zminus_mod a), (Zminus_mod a'), Ha, Hb. reflexivity.
Qed.

#[global] Instance congr_mul (q : Z) :
  Proper (congr q ==> congr q ==> congr q) Z.mul.
Proof.
  unfold congr. intros a a' Ha b b' Hb.
  rewrite (Zmult_mod a), (Zmult_mod a'), Ha, Hb. reflexivity.
Qed.

#[global] Instance congr_opp (q : Z) : Proper (congr q ==> congr q) Z.opp.
Proof.
  intros a a' Ha. rewrite <- !Z.sub_0_l. rewrite Ha. reflexivity.
Qed.

Lemma congr_mod (q a : Z) : congr q (a mod q) a.
Proof. unfold congr. apply Zmod_mod. Qed.

(** Closes [a mod q = b mod q] when [a] and [b] agree as ring
    expressions once their inner reductions modulo [q] are dropped. *)
Ltac mod_ring :=
  match goal with
  | |- ?a mod ?q = ?b mod ?q =>
      change (congr q a b);
      try (rewrite_strat (topdown congr_mod));
      unfold congr; f_equal; ring
  end.

(** ** The convolution loops of [FieldExtBase.__mul__] *)

Section Convolution.

Variable q : Z.
Hypothesis q_nonzero : q <> 0.
Variable embedding : nat.
Hypothesis embedding_pos : (0 < embedding)%nat.
Variable rt : Fq.

Lemma acc_add_length (vs : list Z) (k : nat) (t : Z) :
  length (acc_add vs k t) = length vs.
Proof.
  revert k; induction vs as [| v vs IH]; intros [| k]; simpl; auto.
Qed.

Lemma acc_add_nth (vs : list Z) (k k' : nat) (t : Z) :
  (k < length vs)%nat ->
  nth k' (acc_add vs k t) 0 = nth k' vs 0 + (if (k =? k')%nat then t else 0).
Proof.
  revert k k'; induction vs as [| v vs IH]; intros k k' Hk; simpl in Hk.
  - lia.
  - destruct k as [| k], k' as [| k']; simpl; try lia.
    apply IH. lia.
Qed.

(** Reading a slot and writing back the slot plus a term, on the
    reduced view. *)
Lemma reduce_get_set (vs : list Z) (k : nat) :
  (k < length vs)%nat ->
  buf_get (reduce q vs) k = Ok (red q (nth k vs 0)) /\
  forall t, buf_set (reduce q vs) k (red q (nth k vs 0 + t)) = reduce q (acc_add vs k t).
Proof.
  revert k; induction vs as [| v vs IH]; intros k Hk; simpl in Hk.
  - lia.
  - destruct k as [| k]; simpl.
    + split; reflexivity.
    + destruct (IH k ltac:(lia)) as (Hg & Hs). split.
      * exact Hg.
      * intros t. unfold reduce in Hs. rewrite Hs. reflexivity.
Qed.

Lemma red_add (v t : Z) :
  scalar_add (red q v) (red q t) = Ok (red q (v + t)).
Proof.
  unfold red, scalar_add, Fq_add_int; simpl.
  rewrite Fq_new_ok by assumption. simpl.
  rewrite Z.add_mod_idemp_l, Z.add_mod_idemp_r by assumption. reflexivity.
Qed.

Lemma red_mul (x : Fq) (y : scalar) :
  Q x = q -> scalar_mul (SFq x) y = Ok (red q (val x * int_of y)).
Proof.
  intros Hx. unfold red, scalar_mul, Fq_mul_int; simpl.
  rewrite Hx, Fq_new_ok by assumption. reflexivity.
Qed.

Lemma red_mul_root (v : Z) :
  scalar_mul (red q v) (SFq rt) = Ok (red q (v * val rt)).
Proof.
  unfold red, scalar_mul, Fq_mul_int; simpl.
  rewrite Fq_new_ok by assumption. simpl.
  rewrite Z.mul_mod_idemp_l by assumption. reflexivity.
Qed.

(** Step: one pass of the inner loop body adds [body_term embedding rt] to slot
    [(i + j) % embedding]; the [if x and y] test only skips terms that
    are zero. *)
Lemma mul_inner_body_step (i : nat) (x : Fq) (vs : list Z) (jy : nat * scalar) :
  Q x = q -> length vs = embedding ->
  mul_inner_body embedding rt i (SFq x) (reduce q vs) jy
  = Ok (reduce q (acc_add vs ((i + fst jy) mod embedding) (body_term embedding rt i x jy))).
Proof.
  intros Hx Hlen. destruct jy as [j y]. unfold mul_inner_body, body_term; simpl fst; simpl snd.
  assert (Hk : ((i + j) mod embedding < length vs)%nat).
  { rewrite Hlen. apply Nat.mod_upper_bound. lia. }
  destruct (reduce_get_set vs _ Hk) as (Hget & Hset).
  assert (Hmod : py_mod (i + j) embedding = Ok ((i + j) mod embedding)%nat).
  { unfold py_mod. destruct (Nat.eqb_spec embedding 0); [lia | reflexivity]. }
  destruct (scalar_bool (SFq x) && scalar_bool y) eqn:Hb.
  - destruct (embedding <=? i + j)%nat; rewrite Hmod; cbn [bind];
      rewrite Hget; cbn [bind]; rewrite (red_mul x y Hx); cbn [bind].
    + rewrite red_mul_root; cbn [bind]. rewrite red_add; cbn [bind].
      rewrite Hset. reflexivity.
    + rewrite red_add; cbn [bind]. rewrite Hset. reflexivity.
  - assert (Hz : val x * int_of y = 0).
    { unfold scalar_bool in Hb; simpl in Hb.
      apply andb_false_iff in Hb.
      destruct Hb as [Hb | Hb]; apply negb_false_iff, Z.eqb_eq in Hb; lia. }
    rewrite Hz. replace (if (embedding <=? i + j)%nat then 0 * val rt else 0) with 0
      by (destruct (embedding <=? i + j)%nat; reflexivity).
    f_equal. rewrite <- Hset, Z.add_0_r.
    clear - Hk. revert Hk. generalize ((i + j) mod embedding)%nat.
    induction vs as [| v vs IH]; intros [| k] Hk; simpl in *; try lia; try reflexivity.
    f_equal. apply IH. lia.
Qed.

Lemma inner_acc_length i x js : forall vs, length (inner_acc embedding rt i x vs js) = length vs.
Proof.
  unfold inner_acc.
  induction js as [| jy js IH]; intros vs; simpl; [reflexivity |].
  rewrite IH. apply acc_add_length.
Qed.

Lemma inner_loop_run (i : nat) (x : Fq) (js : list (nat * scalar)) :
  Q x = q -> forall vs, length vs = embedding ->
  foldM (mul_inner_body embedding rt i (SFq x)) js (reduce q vs)
  = Ok (reduce q (inner_acc embedding rt i x vs js)).
Proof.
  intros Hx. induction js as [| jy js IH]; intros vs Hlen; simpl; [reflexivity |].
  rewrite mul_inner_body_step by assumption. simpl.
  apply IH. rewrite acc_add_length. exact Hlen.
Qed.

Lemma outer_loop_run (ys : list scalar) (ixs : list (nat * scalar)) :
  Forall (fun ix => over_q q (snd ix)) ixs ->
  forall vs, length vs = embedding ->
  foldM (fun buf ix =>
           foldM (mul_inner_body embedding rt (fst ix) (snd ix)) (enumerate ys) buf)
        ixs (reduce q vs)
  = Ok (reduce q (outer_acc embedding rt ys vs ixs)).
Proof.
  induction 1 as [| [i s] ixs Hs _ IH]; intros vs Hlen; simpl;
    [reflexivity |].
  simpl in Hs. destruct Hs as (x & -> & Hx).
  rewrite inner_loop_run by assumption. simpl.
  apply IH. rewrite inner_acc_length. exact Hlen.
Qed.

(** End: what the slots hold after the loops. *)
Lemma inner_acc_nth (i : nat) (x : Fq) (k : nat) (js : list (nat * scalar)) :
  forall vs, length vs = embedding ->
  nth k (inner_acc embedding rt i x vs js) 0
  = nth k vs 0 + sumZ (conv_term embedding (val rt) k (i, SFq x)) js.
Proof.
  unfold inner_acc.
  induction js as [| jy js IH]; intros vs Hlen; simpl; [lia |].
  rewrite IH by (rewrite acc_add_length; exact Hlen).
  rewrite acc_add_nth by (rewrite Hlen; apply Nat.mod_upper_bound; lia).
  unfold conv_term, body_term; simpl. lia.
Qed.

Lemma outer_acc_nth (ys : list scalar) (k : nat) (ixs : list (nat * scalar)) :
  Forall (fun ix => over_q q (snd ix)) ixs ->
  forall vs, length vs = embedding ->
  nth k (outer_acc embedding rt ys vs ixs) 0
  = nth k vs 0
    + sumZ (fun ix => sumZ (conv_term embedding (val rt) k ix) (enumerate ys)) ixs.
Proof.
  unfold outer_acc.
  induction 1 as [| [i s] ixs Hs _ IH]; intros vs Hlen; simpl; [lia |].
  simpl in Hs. destruct Hs as (x & -> & Hx).
  rewrite IH by (rewrite inner_acc_length; exact Hlen).
  rewrite inner_acc_nth by exact Hlen. lia.
Qed.

Lemma outer_acc_length (ys : list scalar) (ixs : list (nat * scalar)) :
  forall vs, length (outer_acc embedding rt ys vs ixs) = length vs.
Proof.
  unfold outer_acc.
  induction ixs as [| [i s] ixs IH]; intros vs; simpl; [reflexivity |].
  rewrite IH. destruct s; [reflexivity | apply inner_acc_length].
Qed.

Lemma zeros_reduce (xs : list scalar) :
  zeros q xs = Ok (reduce q (map (fun _ => 0) xs)).
Proof.
  unfold zeros. induction xs as [| x xs IH]; simpl; [reflexivity |].
  unfold Fq_zero at 1. rewrite Fq_new_ok by assumption. simpl.
  rewrite IH. reflexivity.
Qed.

Lemma enumerate_over_q (xs : list scalar) :
  Forall (over_q q) xs -> Forall (fun ix => over_q q (snd ix)) (enumerate xs).
Proof.
  unfold enumerate. generalize (seq 0 (length xs)).
  induction xs as [| x xs IH]; intros [| n ns] H; simpl; constructor.
  - inversion H; assumption.
  - apply IH. inversion H; assumption.
Qed.

Lemma nth_const_zero (xs : list scalar) (k : nat) :
  nth k (map (fun _ => 0) xs) 0 = 0.
Proof.
  revert k; induction xs as [| x xs IH]; intros [| k]; simpl; auto.
Qed.

Lemma nth_error_reduce (vs : list Z) (k : nat) :
  (k < length vs)%nat -> nth_error (reduce q vs) k = Some (red q (nth k vs 0)).
Proof.
  revert k; induction vs as [| v vs IH]; intros [| k] Hk; simpl in *;
    try lia; [reflexivity |].
  apply IH. lia.
Qed.

(** Started on a buffer of zeros, the loops leave in slot [k] the
    element of [Fq] over [q] whose value is the convolution sum for
    [k], reduced modulo [q]. *)
Lemma mul_loops_spec (xs ys : list scalar) :
  Forall (over_q q) xs -> length xs = embedding ->
  exists buf0 buf,
    zeros q xs = Ok buf0 /\
    mul_loops embedding rt xs ys buf0 = Ok buf /\
    length buf = embedding /\
    forall k, (k < embedding)%nat ->
      nth_error buf k = Some (red q (conv_coeff embedding (val rt) xs ys k)).
Proof.
  intros Hxs Hlen.
  set (vs0 := map (fun _ : scalar => 0) xs).
  assert (Hl0 : length vs0 = embedding)
    by (unfold vs0; rewrite length_map; exact Hlen).
  exists (reduce q vs0), (reduce q (outer_acc embedding rt ys vs0 (enumerate xs))).
  split; [apply zeros_reduce |].
  split; [apply outer_loop_run; [apply enumerate_over_q, Hxs | exact Hl0] |].
  split.
  - unfold reduce. rewrite length_map, outer_acc_length. exact Hl0.
  - intros k Hk.
    rewrite nth_error_reduce by (rewrite outer_acc_length; lia).
    rewrite outer_acc_nth by (try apply enumerate_over_q; assumption).
    unfold vs0. rewrite nth_const_zero. reflexivity.
Qed.

End Convolution.

(** ** Construction and multiplication in [Fq2] *)

Lemma Fq2_new_ints (q a b : Z) :
  q <> 0 -> Fq2_new q [PInt a; PInt b] = Ok (fq2_of_ints q a b).
Proof.
  intros Hq. unfold Fq2_new; simpl.
  rewrite !Fq_new_ok by assumption. reflexivity.
Qed.

(** [Fq2(q, x, y)] on two [Fq] objects stores them as they are. *)
Lemma Fq2_new_fqs (q : Z) (x y : Fq) :
  q <> 0 ->
  Fq2_new q [PFq x; PFq y] = Ok (mkFq2 q [SFq x; SFq y] (mkFq q ((-1) mod q))).
Proof.
  intros Hq. unfold Fq2_new; simpl.
  rewrite !Fq_new_ok by assumption. reflexivity.
Qed.

(** The product of a two-coefficient element over [q] with any
    two-coefficient element. *)
Lemma Fq2_mul_pair (q q' : Z) (x0 x1 rt rt' : Fq) (y0 y1 : scalar) :
  q <> 0 -> Q x0 = q -> Q x1 = q ->
  Fq2_mul (mkFq2 q [SFq x0; SFq x1] rt) (PFq2 (mkFq2 q' [y0; y1] rt'))
  = Ok (Value (mkFq2 q
                 [red q (val x0 * int_of y0 + val x1 * int_of y1 * val rt);
                  red q (val x0 * int_of y1 + val x1 * int_of y0)] rt)).
Proof.
  intros Hq H0 H1.
  destruct (mul_loops_spec q Hq 2%nat ltac:(lia) rt [SFq x0; SFq x1] [y0; y1])
    as (buf0 & buf & Hz & Hrun & Hlen & Hnth).
  { repeat constructor; eexists; split; try reflexivity; assumption. }
  { reflexivity. }
  unfold Fq2_mul; simpl ext_Q; simpl coeffs; simpl root.
  replace (Fq2_extension <? Fq2_extension) with false by reflexivity.
  rewrite Hz; cbn [bind]. unfold Fq2_embedding. rewrite Hrun; cbn [bind].
  pose proof (Hnth 0%nat ltac:(lia)) as E0.
  pose proof (Hnth 1%nat ltac:(lia)) as E1.
  destruct buf as [| b0 [| b1 [| b2 buf]]]; simpl in Hlen; try lia.
  simpl in E0, E1. injection E0 as ->. injection E1 as ->.
  unfold conv_coeff, conv_term, enumerate, sumZ; simpl.
  do 3 f_equal. f_equal; [| f_equal]; unfold red; do 2 f_equal; f_equal; ring.
Qed.

(** C5: in the equal-degree case the loops leave in slot [k] the sum,
    over all pairs of positions [(i, j)] with [(i + j) % embedding = k],
    of the product of the [i]-th coefficient of the left operand and the
    [j]-th coefficient of the right operand, times [root] when
    [i + j >= embedding], reduced modulo [q]; and for [Fq2], where
    [root] is [-1], [(x0 + x1 i)(y0 + y1 i)] is
    [(x0 y0 - x1 y1) + (x0 y1 + x1 y0) i]. *)
Theorem FieldExt_mul_convolution (q : Z) (embedding : nat) (rt : Fq)
    (xs ys : list scalar) (x0 x1 y0 y1 : Fq) :
  q <> 0 -> (0 < embedding)%nat ->
  Forall (over_q q) xs -> length xs = embedding -> length ys = embedding ->
  Q x0 = q -> Q x1 = q ->
  (exists buf0 buf,
      zeros q xs = Ok buf0 /\
      mul_loops embedding rt xs ys buf0 = Ok buf /\
      length buf = embedding /\
      forall k, (k < embedding)%nat ->
        nth_error buf k
        = Some (SFq (mkFq q (conv_coeff embedding (val rt) xs ys k mod q)))) /\
  (exists e1 e2,
      Fq2_new q [PFq x0; PFq x1] = Ok e1 /\
      Fq2_new q [PFq y0; PFq y1] = Ok e2 /\
      val (root e1) = (-1) mod q /\
      Fq2_mul e1 (PFq2 e2)
      = fmap Value (Fq2_new q [PInt (val x0 * val y0 - val x1 * val y1);
                               PInt (val x0 * val y1 + val x1 * val y0)])).
Proof.
  intros Hq Hemb Hxs Hlx _ H0 H1. split.
  - apply mul_loops_spec; assumption.
  - exists (mkFq2 q [SFq x0; SFq x1] (mkFq q ((-1) mod q))),
           (mkFq2 q [SFq y0; SFq y1] (mkFq q ((-1) mod q))).
    rewrite !Fq2_new_fqs, Fq2_new_ints by assumption.
    repeat split.
    rewrite Fq2_mul_pair by assumption. simpl.
    unfold fq2_of_ints, red.
    replace ((val x0 * val y0 + val x1 * val y1 * (-1 mod q)) mod q)
      with ((val x0 * val y0 - val x1 * val y1) mod q) by mod_ring.
    reflexivity.
Qed.

Lemma FieldExt_mul_convolution_witness :
  (exists buf0 buf,
      zeros 13 [SFq (mkFq 13 3); SFq (mkFq 13 4)] = Ok buf0 /\
      mul_loops 2 (mkFq 13 12) [SFq (mkFq 13 3); SFq (mkFq 13 4)]
                [SFq (mkFq 13 10); SFq (mkFq 13 4)] buf0 = Ok buf /\
      length buf = 2%nat /\
      forall k, (k < 2)%nat ->
        nth_error buf k
        = Some (SFq (mkFq 13
                  (conv_coeff 2 12 [SFq (mkFq 13 3); SFq (mkFq 13 4)]
                              [SFq (mkFq 13 10); SFq (mkFq 13 4)] k mod 13)))) /\
  (exists e1 e2,
      Fq2_new 13 [PFq (mkFq 13 3); PFq (mkFq 13 4)] = Ok e1 /\
      Fq2_new 13 [PFq (mkFq 13 10); PFq (mkFq 13 4)] = Ok e2 /\
      val (root e1) = (-1) mod 13 /\
      Fq2_mul e1 (PFq2 e2)
      = fmap Value (Fq2_new 13 [PInt (3 * 10 - 4 * 4); PInt (3 * 4 + 4 * 10)])).
Proof.
  apply (FieldExt_mul_convolution 13 2 (mkFq 13 12)
           [SFq (mkFq 13 3); SFq (mkFq 13 4)]
           [SFq (mkFq 13 10); SFq (mkFq 13 4)]
           (mkFq 13 3) (mkFq 13 4) (mkFq 13 10) (mkFq 13 4));
    try reflexivity; try lia.
  repeat constructor; eexists; split; reflexivity.
Defined.

(** ** Inversion in [Fq2] *)

Lemma Fq2_one_ok (q : Z) :
  q <> 0 ->
  Fq2_one q = Ok (mkFq2 q [red q 1; red q 0] (mkFq q ((-1) mod q))).
Proof.
  intros Hq. unfold Fq2_one, Fq2_from_fq, Fq_from_fq, Fq_zero.
  rewrite !Fq_new_ok by assumption. reflexivity.
Qed.

Lemma scalar_eq_refl (s : scalar) : scalar_eq s s = true.
Proof. destruct s; simpl; rewrite ?Z.eqb_refl; reflexivity. Qed.

Lemma tuple_eq_refl (l : list scalar) : tuple_eq l l = true.
Proof.
  induction l as [| s l IH]; simpl; [reflexivity |].
  rewrite scalar_eq_refl, IH. reflexivity.
Qed.

Lemma Fq2_eq_refl (e : Fq2) : Fq2_eq e (PFq2 e) = Ok (Value true).
Proof. simpl. rewrite tuple_eq_refl, Z.eqb_refl. reflexivity. Qed.

(** The norm formula, step by step. *)
Lemma Fq2_invert_ints (q a b : Z) (i : Fq) :
  q <> 0 ->
  Fq_invert (mkFq q ((a * a + b * b) mod q)) = Ok i ->
  Fq2_invert (fq2_of_ints q a b) = Ok (fq2_of_ints q (a * val i) (- b * val i)).
Proof.
  intros Hq Hi. unfold Fq2_invert, fq2_of_ints; simpl coeffs; simpl ext_Q.
  unfold red at 1 2 3.
  rewrite !(red_mul q Hq) by reflexivity; cbn [bind].
  rewrite red_add by assumption; cbn [bind].
  unfold red at 1. simpl val. simpl int_of.
  replace (((a mod q) * (a mod q) + (b mod q) * (b mod q)) mod q)
    with ((a * a + b * b) mod q) by mod_ring.
  unfold scalar_invert. rewrite Hi; cbn [bind fmap].
  unfold red at 1. rewrite (red_mul q Hq) by reflexivity; cbn [bind].
  unfold scalar_neg, Fq_neg. simpl Q; simpl val.
  rewrite Fq_new_ok by assumption; cbn [bind fmap].
  rewrite (red_mul q Hq) by reflexivity; cbn [bind].
  unfold red at 1 2. simpl of_scalar.
  rewrite Fq2_new_fqs by assumption.
  unfold red. simpl val. simpl int_of.
  replace ((a mod q * val i) mod q) with ((a * val i) mod q) by mod_ring.
  replace (((- (b mod q)) mod q * val i) mod q)
    with ((- b * val i) mod q) by mod_ring.
  reflexivity.
Qed.

(** C4 (amended): for [a + b i] over a prime modulus whose norm
    [N = a^2 + b^2] is nonzero in the field, [invert] returns
    [(a / N) + (- b / N) i], and the generic equal-degree product of the
    element with that inverse is [one]. *)
Theorem Fq2_invert_is_inverse (q a b : Z) :
  Z.prime q -> (a * a + b * b) mod q <> 0 ->
  exists e n i inv one,
    Fq2_new q [PInt a; PInt b] = Ok e /\
    Fq_new q (a * a + b * b) = Ok n /\
    Fq_invert n = Ok i /\ Fq_mul n (PFq i) = fmap Value (Fq_one q) /\
    Fq2_invert e = Ok inv /\
    Fq2_new q [PInt (a * val i); PInt (- b * val i)] = Ok inv /\
    Fq2_one q = Ok one /\
    Fq2_mul e (PFq2 inv) = Ok (Value one) /\
    Fq2_eq one (PFq2 one) = Ok (Value true).
Proof.
  intros Hp Hn. pose proof (Z.prime_ge_2 _ Hp) as Hq2.
  assert (Hq : q <> 0) by lia.
  set (n := mkFq q ((a * a + b * b) mod q)).
  assert (Cn : canonical n) by (apply Fq_new_canonical; lia).
  destruct (Fq_invert_ok n Hp Cn Hn) as (i & Ei & Qi & Ci & Mi).
  simpl in Mi.
  exists (fq2_of_ints q a b), n, i, (fq2_of_ints q (a * val i) (- b * val i)),
         (mkFq2 q [red q 1; red q 0] (mkFq q ((-1) mod q))).
  rewrite !Fq2_new_ints, Fq_new_ok, Fq2_one_ok, Fq_one_ok by lia.
  rewrite Fq_mul_Fq by exact Hq. simpl Q. simpl val at 1. rewrite Mi.
  rewrite (Fq2_invert_ints q a b i Hq Ei), Fq2_eq_refl.
  repeat split; [exact Ei |].
  unfold fq2_of_ints. unfold red at 1 2.
  rewrite Fq2_mul_pair by (assumption || reflexivity).
  unfold red; simpl val; simpl int_of.
  replace ((a mod q * ((a * val i) mod q)
            + b mod q * ((- b * val i) mod q) * ((-1) mod q)) mod q)
    with (((a * a + b * b) mod q * val i) mod q) by mod_ring.
  replace ((a mod q * ((- b * val i) mod q) + b mod q * ((a * val i) mod q)) mod q)
    with (0 mod q) by mod_ring.
  rewrite Mi. rewrite (Z.mod_small 1) by lia. reflexivity.
Qed.

Lemma Fq2_invert_is_inverse_witness :
  exists e n i inv one,
    Fq2_new 13 [PInt 3; PInt 4] = Ok e /\
    Fq_new 13 (3 * 3 + 4 * 4) = Ok n /\
    Fq_invert n = Ok i /\ Fq_mul n (PFq i) = fmap Value (Fq_one 13) /\
    Fq2_invert e = Ok inv /\
    Fq2_new 13 [PInt (3 * val i); PInt (- 4 * val i)] = Ok inv /\
    Fq2_one 13 = Ok one /\
    Fq2_mul e (PFq2 inv) = Ok (Value one) /\
    Fq2_eq one (PFq2 one) = Ok (Value true).
Proof.
  apply (Fq2_invert_is_inverse 13 3 4).
  - exact prime_13.
  - vm_compute. discriminate.
Defined.

(** C4 as stated fails over the modulus 13, where [-1] is a square:
    [Fq2(13, 2, 3)] is nonzero, its norm [4 + 9] is [0] in the field,
    [invert] returns the zero element, and the product is [zero], not
    [one]. *)
Lemma Fq2_13_2_3_times_inverse_not_one :
  exists e inv p one,
    Fq2_new 13 [PInt 2; PInt 3] = Ok e /\
    Fq2_bool e = true /\
    Fq2_invert e = Ok inv /\
    Fq2_mul e (PFq2 inv) = Ok (Value p) /\
    Fq2_one 13 = Ok one /\
    Fq2_eq p (PFq2 one) = Ok (Value false) /\
    p <> one.
Proof.
  exists (fq2_of_ints 13 2 3), (fq2_of_ints 13 0 0), (fq2_of_ints 13 0 0),
         (fq2_of_ints 13 1 0).
  repeat split. vm_compute. discriminate.
Qed.

(** ** The order on [Fq2] *)

Lemma tuple_eq_app (l1 l2 m1 m2 : list scalar) :
  tuple_eq l1 l2 = true -> tuple_eq m1 m2 = true ->
  tuple_eq (l1 ++ m1) (l2 ++ m2) = true.
Proof.
  revert l2; induction l1 as [| x l1 IH]; intros [| y l2] H Hm; simpl in *;
    try discriminate; [exact Hm |].
  apply andb_true_iff in H. destruct H as [Hxy Hl].
  rewrite Hxy. simpl. apply IH; assumption.
Qed.

Lemma tuple_eq_rev (l1 l2 : list scalar) :
  tuple_eq l1 l2 = true -> tuple_eq (rev l1) (rev l2) = true.
Proof.
  revert l2; induction l1 as [| x l1 IH]; intros [| y l2] H; simpl in *;
    try discriminate; [reflexivity |].
  apply andb_true_iff in H. destruct H as [Hxy Hl].
  apply tuple_eq_app; [apply IH, Hl |]. simpl. rewrite Hxy. reflexivity.
Qed.

(** Items that compare equal are skipped by [tuple.__lt__]. *)
Lemma tuple_lt_skip (l1 l2 m1 m2 : list scalar) :
  tuple_eq l1 l2 = true ->
  tuple_lt (l1 ++ m1) (l2 ++ m2) = tuple_lt m1 m2.
Proof.
  revert l2; induction l1 as [| x l1 IH]; intros [| y l2] H; simpl in *;
    try discriminate; [reflexivity |].
  apply andb_true_iff in H. destruct H as [Hxy Hl].
  rewrite Hxy. apply IH, Hl.
Qed.

Lemma tuple_lt_equal (l1 l2 : list scalar) :
  tuple_eq l1 l2 = true -> tuple_lt l1 l2 = false.
Proof.
  revert l2; induction l1 as [| x l1 IH]; intros [| y l2] H; simpl in *;
    try discriminate; [reflexivity |].
  apply andb_true_iff in H. destruct H as [Hxy Hl].
  rewrite Hxy. apply IH, Hl.
Qed.

(** C6 (amended): [less_than] scans the coefficients from the highest
    index down; the coefficients above the first unequal position are
    skipped, the coefficients [x] and [y] at that position decide with
    [x < y], and the positions below are not looked at; elements whose
    coefficients are all equal are not less than one another.  In
    particular [Fq2(13, 5, 1) < Fq2(13, 1, 2)] holds and
    [Fq2(13, 1, 2) < Fq2(13, 5, 1)] does not. *)
Theorem Fq2_lt_reverse_lexicographic
    (self other : Fq2) (lo1 lo2 hi1 hi2 : list scalar) (x y : scalar) :
  coeffs self = lo1 ++ x :: hi1 ->
  coeffs other = lo2 ++ y :: hi2 ->
  tuple_eq hi1 hi2 = true ->
  scalar_eq x y = false ->
  Fq2_lt self (PFq2 other) = Ok (scalar_lt x y) /\
  (forall e1 e2, tuple_eq (coeffs e1) (coeffs e2) = true ->
                 Fq2_lt e1 (PFq2 e2) = Ok false) /\
  (exists e1 e2,
      Fq2_new 13 [PInt 5; PInt 1] = Ok e1 /\
      Fq2_new 13 [PInt 1; PInt 2] = Ok e2 /\
      Fq2_lt e1 (PFq2 e2) = Ok true /\
      Fq2_lt e2 (PFq2 e1) = Ok false).
Proof.
  intros Hs Ho Hhi Hxy. repeat split.
  - unfold Fq2_lt. rewrite Hs, Ho, !rev_app_distr. simpl rev.
    rewrite <- !app_assoc. simpl app.
    rewrite tuple_lt_skip by (apply tuple_eq_rev, Hhi).
    simpl. rewrite Hxy. reflexivity.
  - intros e1 e2 H. unfold Fq2_lt.
    rewrite tuple_lt_equal by (apply tuple_eq_rev, H). reflexivity.
  - exists (fq2_of_ints 13 5 1), (fq2_of_ints 13 1 2). repeat split.
Qed.

Lemma Fq2_lt_reverse_lexicographic_witness :
  Fq2_lt (fq2_of_ints 13 7 2) (PFq2 (fq2_of_ints 13 3 2))
  = Ok (scalar_lt (red 13 7) (red 13 3)) /\
  (forall e1 e2, tuple_eq (coeffs e1) (coeffs e2) = true ->
                 Fq2_lt e1 (PFq2 e2) = Ok false) /\
  (exists e1 e2,
      Fq2_new 13 [PInt 5; PInt 1] = Ok e1 /\
      Fq2_new 13 [PInt 1; PInt 2] = Ok e2 /\
      Fq2_lt e1 (PFq2 e2) = Ok true /\
      Fq2_lt e2 (PFq2 e1) = Ok false).
Proof.
  apply (Fq2_lt_reverse_lexicographic
           (fq2_of_ints 13 7 2) (fq2_of_ints 13 3 2)
           [] [] [red 13 2] [red 13 2] (red 13 7) (red 13 3));
    reflexivity.
Defined.

(** C6 as stated fails on its own example: [Fq2(13, 1, 2)] is not less
    than [Fq2(13, 5, 1)], because the leading coefficients [2] and [1]
    are compared first and [2 < 1] is false. *)
Lemma Fq2_13_1_2_not_lt_13_5_1 :
  exists e1 e2,
    Fq2_new 13 [PInt 1; PInt 2] = Ok e1 /\
    Fq2_new 13 [PInt 5; PInt 1] = Ok e2 /\
    Fq2_lt e1 (PFq2 e2) = Ok false.
Proof.
  exists (fq2_of_ints 13 1 2), (fq2_of_ints 13 5 1). repeat split.
Qed.

(** ** Arity at construction *)

(** Raw integers: exactly two are accepted. *)
Lemma Fq2_new_raw_arity (q n : Z) (ns : list Z) :
  q <> 0 ->
  match ns with
  | [m] => Fq2_new q (map PInt (n :: ns)) = Ok (fq2_of_ints q n m)
  | _ => Fq2_new q (map PInt (n :: ns)) = Raise InvalidArguments
  end.
Proof.
  intros Hq. destruct ns as [| m [| m' ns]]; try reflexivity.
  apply Fq2_new_ints, Hq.
Qed.

(** Field-shaped coefficients: with two or more [Fq] arguments the
    [try] block succeeds with [arg_extension = 1], the only length test
    of that path sits under [if arg_extension != 1], and the tuple is
    built from all of them. *)
Lemma Fq2_new_field_args (q : Z) (x0 x1 : Fq) (xs : list Fq) :
  q <> 0 ->
  Fq2_new q (map PFq (x0 :: x1 :: xs))
  = Ok (mkFq2 q (map SFq (x0 :: x1 :: xs)) (mkFq q ((-1) mod q))).
Proof.
  intros Hq. unfold Fq2_new. simpl.
  assert (E : mapM (fun arg : pyval =>
                      match as_scalar arg with
                      | Some s => Ok s
                      | None => Raise AssertionError
                      end) (map PFq xs) = Ok (map SFq xs)).
  { induction xs as [| x xs IH]; simpl; [reflexivity |].
    rewrite IH. reflexivity. }
  rewrite E. simpl. rewrite Fq_new_ok by assumption. reflexivity.
Qed.

(** C8 at the failing input: [Fq2(13, Fq(13,1), Fq(13,2), Fq(13,3))]
    is constructed without error and carries three coefficients, one
    more than [embedding]. *)
Theorem Fq2_new_three_coefficients :
  exists e,
    Fq2_new 13 [PFq (mkFq 13 1); PFq (mkFq 13 2); PFq (mkFq 13 3)] = Ok e /\
    coeffs e = [SFq (mkFq 13 1); SFq (mkFq 13 2); SFq (mkFq 13 3)] /\
    length (coeffs e) <> Fq2_embedding.
Proof.
  eexists. split; [reflexivity |]. split; [reflexivity |].
  simpl. unfold Fq2_embedding. lia.
Qed.

(** ** Operands over different moduli *)

Lemma red_add_any (q v : Z) (s : scalar) :
  q <> 0 -> scalar_add (red q v) s = Ok (red q (v + int_of s)).
Proof.
  intros Hq. unfold red, scalar_add, Fq_add_int; simpl.
  rewrite Fq_new_ok by assumption. simpl.
  rewrite Z.add_mod_idemp_l by assumption. reflexivity.
Qed.

Lemma red_neg (q v : Z) : q <> 0 -> scalar_neg (red q v) = Ok (red q (- v)).
Proof.
  intros Hq. unfold red, scalar_neg, Fq_neg; simpl.
  rewrite Fq_new_ok by assumption. simpl.
  replace ((- (v mod q)) mod q) with ((- v) mod q) by mod_ring. reflexivity.
Qed.

Lemma Fq_invert_total (y : Fq) :
  Q y <> 0 -> exists i, Fq_invert y = Ok i /\ Q i = Q y.
Proof.
  intros Hq. rewrite Fq_invert_unfold, Fq_new_ok by assumption.
  eexists; split; reflexivity.
Qed.

Lemma Fq2_add_ints (q1 q2 a b c d : Z) :
  q1 <> 0 ->
  Fq2_add (fq2_of_ints q1 a b) (PFq2 (fq2_of_ints q2 c d))
  = Ok (Value (fq2_of_ints q1 (a + c mod q2) (b + d mod q2))).
Proof.
  intros Hq. unfold Fq2_add, fq2_of_ints. cbn [coeffs ext_Q root zipM].
  rewrite !red_add_any by assumption. reflexivity.
Qed.

Lemma Fq2_neg_ints (q c d : Z) :
  q <> 0 -> Fq2_neg (fq2_of_ints q c d) = Ok (fq2_of_ints q (- c) (- d)).
Proof.
  intros Hq. unfold Fq2_neg, fq2_of_ints. cbn [coeffs ext_Q root mapM].
  rewrite !red_neg by assumption. reflexivity.
Qed.

Lemma Fq2_mul_ints (q1 q2 a b c d : Z) :
  q1 <> 0 ->
  Fq2_mul (fq2_of_ints q1 a b) (PFq2 (fq2_of_ints q2 c d))
  = Ok (Value (fq2_of_ints q1 (a * (c mod q2) - b * (d mod q2))
                              (a * (d mod q2) + b * (c mod q2)))).
Proof.
  intros Hq. unfold fq2_of_ints. unfold red at 1 2.
  rewrite Fq2_mul_pair by (assumption || reflexivity).
  unfold red; simpl val; simpl int_of.
  replace ((a mod q1 * (c mod q2) + b mod q1 * (d mod q2) * ((-1) mod q1)) mod q1)
    with ((a * (c mod q2) - b * (d mod q2)) mod q1).
  2:{ change (congr q1 (a * (c mod q2) - b * (d mod q2))
                (a mod q1 * (c mod q2) + b mod q1 * (d mod q2) * ((-1) mod q1))).
      rewrite (congr_mod q1 a), (congr_mod q1 b), (congr_mod q1 (-1)).
      unfold congr. f_equal. ring. }
  replace ((a mod q1 * (d mod q2) + b mod q1 * (c mod q2)) mod q1)
    with ((a * (d mod q2) + b * (c mod q2)) mod q1).
  2:{ change (congr q1 (a * (d mod q2) + b * (c mod q2))
                (a mod q1 * (d mod q2) + b mod q1 * (c mod q2))).
      rewrite (congr_mod q1 a), (congr_mod q1 b). reflexivity. }
  reflexivity.
Qed.

(** Two operands of the same kind over nonzero moduli: every operation
    returns, and the result is over the left operand's modulus.  On
    [Fq] the sum, difference or product of the two values is reduced
    modulo the left modulus, and [div] multiplies by the inverse taken
    over the right modulus.  On [Fq2] the right coefficients enter
    reduced modulo the right modulus; [sub] adds their negation taken
    over the right modulus, and [div] multiplies by the inverse taken
    over the right modulus. *)
Lemma cross_modulus_same_kind (x y : Fq) (q1 q2 a b c d : Z) :
  Q x <> 0 -> Q y <> 0 -> q1 <> 0 -> q2 <> 0 ->
  (Fq_add x (PFq y) = Ok (Value (mkFq (Q x) ((val x + val y) mod Q x))) /\
   Fq_sub x (PFq y) = Ok (Value (mkFq (Q x) ((val x - val y) mod Q x))) /\
   Fq_mul x (PFq y) = Ok (Value (mkFq (Q x) ((val x * val y) mod Q x))) /\
   exists i,
     Fq_invert y = Ok i /\ Q i = Q y /\
     Fq_floordiv x (PFq y) = Ok (PFq (mkFq (Q x) ((val x * val i) mod Q x)))) /\
  (exists e1 e2 i,
      Fq2_new q1 [PInt a; PInt b] = Ok e1 /\
      Fq2_new q2 [PInt c; PInt d] = Ok e2 /\
      Fq_invert (mkFq q2 ((c * c + d * d) mod q2)) = Ok i /\
      Fq2_add e1 (PFq2 e2)
      = fmap Value (Fq2_new q1 [PInt (a + c mod q2); PInt (b + d mod q2)]) /\
      Fq2_sub e1 (PFq2 e2)
      = fmap Value (Fq2_new q1 [PInt (a + (- c) mod q2);
                                PInt (b + (- d) mod q2)]) /\
      Fq2_mul e1 (PFq2 e2)
      = fmap Value (Fq2_new q1 [PInt (a * (c mod q2) - b * (d mod q2));
                                PInt (a * (d mod q2) + b * (c mod q2))]) /\
      Fq2_floordiv e1 (PFq2 e2)
      = fmap Value
          (Fq2_new q1
             [PInt (a * ((c * val i) mod q2) - b * ((- d * val i) mod q2));
              PInt (a * ((- d * val i) mod q2) + b * ((c * val i) mod q2))])).
Proof.
  intros Hx Hy Hq1 Hq2. split.
  - unfold Fq_add, Fq_sub, Fq_mul, Fq_add_int, Fq_sub_int, Fq_mul_int; simpl.
    rewrite !Fq_new_ok by assumption. repeat split.
    destruct (Fq_invert_total y Hy) as (i & Ei & Qi).
    exists i. repeat split; try assumption.
    unfold Fq_floordiv; simpl. rewrite Ei; simpl.
    unfold Fq_times, Fq_mul, Fq_mul_int; simpl.
    rewrite Fq_new_ok by assumption. reflexivity.
  - destruct (Fq_invert_total (mkFq q2 ((c * c + d * d) mod q2)) Hq2)
      as (i & Ei & _).
    exists (fq2_of_ints q1 a b), (fq2_of_ints q2 c d), i.
    rewrite !Fq2_new_ints by assumption. cbn [fmap bind].
    rewrite Fq2_add_ints, Fq2_mul_ints by assumption.
    repeat split; try assumption.
    + unfold Fq2_sub, py_neg. rewrite Fq2_neg_ints by assumption.
      cbn [fmap bind]. apply Fq2_add_ints, Hq1.
    + unfold Fq2_floordiv, py_invert.
      rewrite (Fq2_invert_ints q2 c d i Hq2 Ei). cbn [fmap bind].
      apply Fq2_mul_ints, Hq1.
Qed.

(** C1 as stated fails: [Fq(13, 5) + Fq(17, 10)] raises nothing and
    returns [Fq(13, 2)], the sum reduced modulo the left operand's
    modulus; so does the sum of [Fq2(13, 3, 4)] and [Fq2(17, 15, 16)]. *)
Lemma Fq_13_plus_Fq_17_not_an_error :
  Q (mkFq 13 5) <> Q (mkFq 17 10) /\
  Fq_add (mkFq 13 5) (PFq (mkFq 17 10)) = Ok (Value (mkFq 13 2)) /\
  ~ raises (Fq_add (mkFq 13 5) (PFq (mkFq 17 10))) /\
  exists e1 e2,
    Fq2_new 13 [PInt 3; PInt 4] = Ok e1 /\
    Fq2_new 17 [PInt 15; PInt 16] = Ok e2 /\
    Fq2_add e1 (PFq2 e2) = fmap Value (Fq2_new 13 [PInt 5; PInt 7]) /\
    ~ raises (Fq2_add e1 (PFq2 e2)).
Proof.
  split; [simpl; lia |]. split; [reflexivity |]. split; [intros H; exact H |].
  exists (fq2_of_ints 13 3 4), (fq2_of_ints 17 15 16).
  repeat split. intros H; exact H.
Qed.

(** * Further properties of the prime field *)

Lemma congr_pow (q a b n : Z) :
  0 <= n -> congr q a b -> congr q (a ^ n) (b ^ n).
Proof.
  intros Hn Hab. pattern n. apply natlike_ind; [reflexivity | | exact Hn].
  intros k Hk IH. rewrite !Z.pow_succ_r by assumption.
  apply congr_mul; assumption.
Qed.

Lemma Fq_new_congr (q a b : Z) : congr q a b -> Fq_new q a = Fq_new q b.
Proof.
  intros H. unfold Fq_new. destruct (q =? 0); [reflexivity |].
  unfold congr in H. rewrite H. reflexivity.
Qed.

(** X1: [Fq.__pow__] is modular exponentiation: on an element that
    satisfies the range invariant and an exponent [e >= 0] it returns
    [Fq(Q, value ^ e)]. *)
Theorem Fq_pow_is_power (self : Fq) (e : Z) :
  canonical self -> 0 <= e ->
  Fq_pow self e = Fq_new (Q self) (val self ^ e).
Proof.
  intros Hc He. revert self Hc. pattern e.
  apply Zlt_0_ind; [clear e He | exact He].
  intros e IH He self Hc.
  pose proof (canonical_modulus_pos _ Hc) as Hq.
  destruct (Z.eq_dec e 0) as [-> | N0]; [apply Fq_pow_zero |].
  destruct (Z.eq_dec e 1) as [-> | N1].
  { rewrite Fq_pow_one, Fq_new_ok, Z.pow_1_r, Z.mod_small by (apply Hc || lia).
    destruct self; reflexivity. }
  assert (Hhalf : 0 <= e / 2 < e) by (Z.div_mod_to_equations; lia).
  set (sq := mkFq (Q self) ((val self * val self) mod Q self)).
  assert (Csq : canonical sq) by (apply Fq_new_canonical, Hq).
  pose proof (IH (e / 2) Hhalf sq Csq) as Hrec. simpl Q in Hrec. simpl val in Hrec.
  assert (Hsq : congr (Q self) (((val self * val self) mod Q self) ^ (e / 2))
                      (val self ^ (2 * (e / 2)))).
  { rewrite Z.pow_mul_r, Z.pow_2_r by lia.
    apply congr_pow; [lia | apply congr_mod]. }
  destruct (Z.eq_dec (e mod 2) 0) as [Hm | Hm].
  - rewrite Fq_pow_even by lia.
    rewrite Fq_mul_int_ok by lia. cbn [bind]. fold sq. rewrite Hrec.
    apply Fq_new_congr. rewrite Hsq.
    replace (2 * (e / 2)) with e by (Z.div_mod_to_equations; lia). reflexivity.
  - rewrite Fq_pow_odd by lia.
    rewrite Fq_mul_int_ok by lia. cbn [bind]. fold sq. rewrite Hrec.
    rewrite Fq_new_ok by lia. cbn [bind].
    unfold Fq_mul_int. simpl Q. simpl val.
    assert (E : val self ^ e = val self ^ (2 * (e / 2)) * val self).
    { transitivity (val self ^ (2 * (e / 2) + 1)).
      - f_equal. Z.div_mod_to_equations. lia.
      - rewrite Z.pow_add_r, Z.pow_1_r by lia. reflexivity. }
    apply Fq_new_congr. rewrite E.
    apply congr_mul; [| reflexivity].
    rewrite congr_mod. exact Hsq.
Qed.

Lemma Fq_pow_is_power_witness :
  Fq_pow (mkFq 13 6) 5 = Fq_new 13 (6 ^ 5).
Proof.
  apply (Fq_pow_is_power (mkFq 13 6) 5); unfold canonical; simpl; lia.
Defined.

Lemma py_add_Fq (x y : Fq) :
  Q x <> 0 ->
  py_add (PFq x) (PFq y) = Ok (PFq (mkFq (Q x) ((val x + val y) mod Q x))).
Proof.
  intros Hq. unfold py_add, Fq_add, Fq_add_int; simpl.
  rewrite Fq_new_ok by assumption. reflexivity.
Qed.

Lemma py_sub_Fq (x y : Fq) :
  Q x <> 0 ->
  py_sub (PFq x) (PFq y) = Ok (PFq (mkFq (Q x) ((val x - val y) mod Q x))).
Proof.
  intros Hq. unfold py_sub, Fq_sub, Fq_sub_int; simpl.
  rewrite Fq_new_ok by assumption. reflexivity.
Qed.

Lemma py_mul_Fq (x y : Fq) :
  Q x <> 0 ->
  py_mul (PFq x) (PFq y) = Ok (PFq (mkFq (Q x) ((val x * val y) mod Q x))).
Proof.
  intros Hq. unfold py_mul, Fq_times. rewrite Fq_mul_Fq by assumption.
  reflexivity.
Qed.

Lemma py_neg_Fq (x : Fq) :
  Q x <> 0 -> py_neg (PFq x) = Ok (PFq (mkFq (Q x) ((- val x) mod Q x))).
Proof.
  intros Hq. unfold py_neg, Fq_neg. rewrite Fq_new_ok by assumption.
  reflexivity.
Qed.

Ltac fq_normalize :=
  repeat first
    [ rewrite py_add_Fq by (simpl; assumption)
    | rewrite py_sub_Fq by (simpl; assumption)
    | rewrite py_mul_Fq by (simpl; assumption)
    | rewrite py_neg_Fq by (simpl; assumption)
    | rewrite Fq_new_ok by (simpl; assumption)
    | progress cbn [bind fmap Q val] ].

(** X2: The ring laws of [Fq]: over one modulus, [+] and [*] are
    commutative and associative, [*] distributes over [+], [x - y] is
    [x + (-y)], [x + (-x)] is [zero], and [x * one] is [x] for an
    element that satisfies the range invariant. *)
Theorem Fq_ring_laws (x y z : Fq) :
  canonical x -> Q y = Q x -> Q z = Q x ->
  py_add (PFq x) (PFq y) = py_add (PFq y) (PFq x) /\
  (s <- py_add (PFq x) (PFq y) ;; py_add s (PFq z))
  = (t <- py_add (PFq y) (PFq z) ;; py_add (PFq x) t) /\
  py_mul (PFq x) (PFq y) = py_mul (PFq y) (PFq x) /\
  (s <- py_mul (PFq x) (PFq y) ;; py_mul s (PFq z))
  = (t <- py_mul (PFq y) (PFq z) ;; py_mul (PFq x) t) /\
  (s <- py_add (PFq y) (PFq z) ;; py_mul (PFq x) s)
  = (p <- py_mul (PFq x) (PFq y) ;; p' <- py_mul (PFq x) (PFq z) ;; py_add p p') /\
  py_sub (PFq x) (PFq y) = (n <- py_neg (PFq y) ;; py_add (PFq x) n) /\
  (n <- py_neg (PFq x) ;; py_add (PFq x) n) = fmap PFq (Fq_zero (Q x)) /\
  (o <- Fq_one (Q x) ;; py_mul (PFq x) (PFq o)) = Ok (PFq x).
Proof.
  intros Hc Hy Hz. pose proof (canonical_modulus_pos _ Hc) as Hpos.
  destruct x as [q a], y as [q' b], z as [q'' c].
  simpl in Hy, Hz, Hpos. subst q' q''. simpl Q.
  assert (Hq : q <> 0) by lia.
  unfold Fq_zero, Fq_one.
  repeat split; fq_normalize; do 3 f_equal; try mod_ring.
  unfold canonical in Hc; simpl in Hc.
  rewrite Z.mul_mod_idemp_r, Z.mul_1_r by assumption. apply Z.mod_small, Hc.
Qed.

Lemma Fq_ring_laws_witness :
  py_add (PFq (mkFq 13 5)) (PFq (mkFq 13 10))
  = py_add (PFq (mkFq 13 10)) (PFq (mkFq 13 5)) /\
  (s <- py_add (PFq (mkFq 13 5)) (PFq (mkFq 13 10)) ;; py_add s (PFq (mkFq 13 7)))
  = (t <- py_add (PFq (mkFq 13 10)) (PFq (mkFq 13 7)) ;;
     py_add (PFq (mkFq 13 5)) t) /\
  py_mul (PFq (mkFq 13 5)) (PFq (mkFq 13 10))
  = py_mul (PFq (mkFq 13 10)) (PFq (mkFq 13 5)) /\
  (s <- py_mul (PFq (mkFq 13 5)) (PFq (mkFq 13 10)) ;; py_mul s (PFq (mkFq 13 7)))
  = (t <- py_mul (PFq (mkFq 13 10)) (PFq (mkFq 13 7)) ;;
     py_mul (PFq (mkFq 13 5)) t) /\
  (s <- py_add (PFq (mkFq 13 10)) (PFq (mkFq 13 7)) ;; py_mul (PFq (mkFq 13 5)) s)
  = (p <- py_mul (PFq (mkFq 13 5)) (PFq (mkFq 13 10)) ;;
     p' <- py_mul (PFq (mkFq 13 5)) (PFq (mkFq 13 7)) ;; py_add p p') /\
  py_sub (PFq (mkFq 13 5)) (PFq (mkFq 13 10))
  = (n <- py_neg (PFq (mkFq 13 10)) ;; py_add (PFq (mkFq 13 5)) n) /\
  (n <- py_neg (PFq (mkFq 13 5)) ;; py_add (PFq (mkFq 13 5)) n)
  = fmap PFq (Fq_zero 13) /\
  (o <- Fq_one 13 ;; py_mul (PFq (mkFq 13 5)) (PFq o)) = Ok (PFq (mkFq 13 5)).
Proof.
  apply (Fq_ring_laws (mkFq 13 5) (mkFq 13 10) (mkFq 13 7));
    unfold canonical; simpl; lia.
Defined.

(** X3: [~a] over any positive modulus: the product of the value with the
    returned value is the gcd of modulus and value, modulo the modulus;
    so [a * ~a] is [one] exactly when the value is coprime to the
    modulus. *)
Theorem Fq_invert_gcd (a : Fq) :
  canonical a -> 1 < Q a ->
  exists i,
    Fq_invert a = Ok i /\ Q i = Q a /\ canonical i /\
    (val a * val i) mod Q a = Z.gcd (Q a) (val a) mod Q a /\
    (py_mul (PFq a) (PFq i) = fmap PFq (Fq_one (Q a))
     <-> Z.gcd (Q a) (val a) = 1).
Proof.
  intros Hc Hq1. unfold canonical in Hc.
  destruct (invert_loop_spec (val a) (Q a) (Q a) (val a) 1 0 0 1)
    as (_ & Hg & Hz); try lia.
  set (x0 := st_x0 (invert_loop (Q a) (val a) 1 0 0 1)) in *.
  set (y0 := st_y0 (invert_loop (Q a) (val a) 1 0 0 1)) in *.
  rewrite Hg in Hz.
  assert (Hprod : (val a * (x0 mod Q a)) mod Q a = Z.gcd (Q a) (val a) mod Q a).
  { rewrite Z.mul_mod_idemp_r by lia. rewrite Hz.
    replace (val a * x0) with (x0 * val a + y0 * Q a + (- y0) * Q a) by ring.
    apply Z.mod_add. lia. }
  exists (mkFq (Q a) (x0 mod Q a)).
  rewrite Fq_invert_unfold. fold x0. rewrite Fq_new_ok by lia.
  split; [reflexivity |]. split; [reflexivity |].
  split; [apply Fq_new_canonical; lia |].
  split; [exact Hprod |].
  rewrite py_mul_Fq, Fq_one_ok by lia. simpl val. simpl fmap. rewrite Hprod.
  assert (Hgpos : 0 < Z.gcd (Q a) (val a)).
  { pose proof (Z.gcd_nonneg (Q a) (val a)).
    assert (Z.gcd (Q a) (val a) <> 0); [| lia].
    intros E. apply Z.gcd_eq_0_l in E. lia. }
  assert (Hgle : Z.gcd (Q a) (val a) <= Q a).
  { apply Z.divide_pos_le; [lia | apply Z.gcd_divide_l]. }
  split.
  - intros H. injection H as H.
    destruct (Z.eq_dec (Z.gcd (Q a) (val a)) (Q a)) as [E | N].
    + rewrite E, Z.mod_same in H by lia. discriminate.
    + rewrite Z.mod_small in H by lia. exact H.
  - intros ->. rewrite Z.mod_small by lia. reflexivity.
Qed.

Lemma Fq_invert_gcd_witness :
  exists i,
    Fq_invert (mkFq 12 8) = Ok i /\ Q i = 12 /\ canonical i /\
    (8 * val i) mod 12 = Z.gcd 12 8 mod 12 /\
    (py_mul (PFq (mkFq 12 8)) (PFq i) = fmap PFq (Fq_one 12)
     <-> Z.gcd 12 8 = 1).
Proof.
  apply (Fq_invert_gcd (mkFq 12 8)); unfold canonical; simpl; lia.
Defined.

Lemma Fq_floordiv_Fq (a b i : Fq) :
  Q a <> 0 -> Fq_invert b = Ok i ->
  Fq_floordiv a (PFq b) = Ok (PFq (mkFq (Q a) ((val a * val i) mod Q a))).
Proof.
  intros Hq Ei. unfold Fq_floordiv, py_invert. cbn [bind].
  rewrite Ei. cbn [fmap bind]. unfold Fq_times.
  rewrite Fq_mul_Fq by exact Hq. reflexivity.
Qed.

Lemma Fq_floordiv_int (a i : Fq) (n : Z) :
  Q a <> 0 -> Fq_invert (mkFq (Q a) (n mod Q a)) = Ok i ->
  Fq_floordiv a (PInt n) = Ok (PFq (mkFq (Q a) ((val a * val i) mod Q a))).
Proof.
  intros Hq Ei. unfold Fq_floordiv, py_invert.
  rewrite Fq_new_ok by exact Hq. cbn [fmap bind].
  rewrite Ei. cbn [fmap bind]. unfold Fq_times.
  rewrite Fq_mul_Fq by exact Hq. reflexivity.
Qed.

Lemma py_mul_Fq_int (x : Fq) (n : Z) :
  Q x <> 0 ->
  py_mul (PFq x) (PInt n) = Ok (PFq (mkFq (Q x) ((val x * n) mod Q x))).
Proof.
  intros Hq. unfold py_mul, Fq_times, Fq_mul, Fq_mul_int; simpl.
  rewrite Fq_new_ok by assumption. reflexivity.
Qed.

Lemma div_mul_cancel (q a c i m : Z) :
  1 < q -> 0 <= a < q -> (c * i) mod q = 1 -> congr q m c ->
  ((a * i) mod q * m) mod q = a.
Proof.
  intros Hq Ha Hci Hm.
  rewrite <- (Z.mod_small a q) at 2 by exact Ha.
  change (congr q ((a * i) mod q * m) a).
  rewrite congr_mod, Hm.
  replace (a * i * c) with (a * (c * i)) by ring.
  assert (Hone : congr q (c * i) 1).
  { unfold congr. rewrite Hci. symmetry. apply Z.mod_small. lia. }
  rewrite Hone, Z.mul_1_r. reflexivity.
Qed.

(** X4: Division undoes multiplication: over a prime modulus, for [a] within
    range and a divisor that is nonzero in the field, given as an element
    [b] or as a plain integer [n] (lifted by [Fq(self.Q, n)] first),
    [(a / b) * b] is [a]. *)
Theorem Fq_floordiv_then_mul (a b : Fq) (n : Z) :
  Z.prime (Q a) -> canonical a ->
  Q b = Q a -> canonical b -> val b <> 0 ->
  n mod Q a <> 0 ->
  (d <- Fq_floordiv a (PFq b) ;; py_mul d (PFq b)) = Ok (PFq a) /\
  (d <- Fq_floordiv a (PInt n) ;; py_mul d (PInt n)) = Ok (PFq a).
Proof.
  intros Hp Ha Hb Cb Hbnz Hn. pose proof (Z.prime_ge_2 _ Hp) as Hq2.
  assert (Hq : Q a <> 0) by lia.
  split.
  - assert (Hpb : Z.prime (Q b)) by (rewrite Hb; exact Hp).
    destruct (Fq_invert_ok b Hpb Cb Hbnz) as (i & Ei & Qi & Ci & Mi).
    rewrite (Fq_floordiv_Fq a b i Hq Ei). cbn [bind].
    rewrite py_mul_Fq by exact Hq. simpl Q. simpl val.
    rewrite Hb in Mi.
    rewrite (div_mul_cancel (Q a) (val a) (val b) (val i) (val b));
      try (apply Ha || lia || exact Mi || reflexivity).
    destruct a; reflexivity.
  - set (c := mkFq (Q a) (n mod Q a)).
    assert (Cc : canonical c) by (apply Fq_new_canonical; lia).
    destruct (Fq_invert_ok c Hp Cc Hn) as (i & Ei & Qi & Ci & Mi).
    rewrite (Fq_floordiv_int a i n Hq Ei). cbn [bind].
    rewrite py_mul_Fq_int by exact Hq. simpl Q. simpl val.
    simpl in Mi.
    rewrite (div_mul_cancel (Q a) (val a) (n mod Q a) (val i) n);
      try (apply Ha || lia || exact Mi).
    + destruct a; reflexivity.
    + symmetry. apply congr_mod.
Qed.

Lemma Fq_floordiv_then_mul_witness :
  (d <- Fq_floordiv (mkFq 13 5) (PFq (mkFq 13 7)) ;; py_mul d (PFq (mkFq 13 7)))
  = Ok (PFq (mkFq 13 5)) /\
  (d <- Fq_floordiv (mkFq 13 5) (PInt 20) ;; py_mul d (PInt 20))
  = Ok (PFq (mkFq 13 5)).
Proof.
  apply (Fq_floordiv_then_mul (mkFq 13 5) (mkFq 13 7) 20).
  - exact prime_13.
  - unfold canonical; simpl; lia.
  - reflexivity.
  - unfold canonical; simpl; lia.
  - simpl; lia.
  - vm_compute. discriminate.
Defined.

(** X5: With a plain integer on the left, [+], [*] and [-] run the
    reflected methods of [Fq]: the result is an [Fq] over the element's
    modulus, [n + x] and [n * x] are [x + n] and [x * n], and [n - x] is
    [-(x - n)]. *)
Theorem Fq_reflected_operators (x : Fq) (n : Z) :
  Q x <> 0 ->
  py_add (PInt n) (PFq x) = py_add (PFq x) (PInt n) /\
  py_mul (PInt n) (PFq x) = py_mul (PFq x) (PInt n) /\
  py_sub (PInt n) (PFq x) = (d <- py_sub (PFq x) (PInt n) ;; py_neg d) /\
  py_sub (PInt n) (PFq x) = Ok (PFq (mkFq (Q x) ((n - val x) mod Q x))).
Proof.
  intros Hq. split; [reflexivity |].
  split.
  { unfold py_mul, Fq_rmul, Fq_times, Fq_mul, Fq_mul_int; simpl.
    rewrite Fq_new_ok by assumption. reflexivity. }
  unfold py_sub, py_neg, Fq_rsub, Fq_sub, Fq_rsub_int, Fq_sub_int, Fq_neg; simpl.
  rewrite !Fq_new_ok by assumption. simpl.
  rewrite Fq_new_ok by assumption.
  replace ((- ((val x - n) mod Q x)) mod Q x) with ((n - val x) mod Q x)
    by mod_ring.
  split; reflexivity.
Qed.

Lemma Fq_reflected_operators_witness :
  py_add (PInt 20) (PFq (mkFq 13 5)) = py_add (PFq (mkFq 13 5)) (PInt 20) /\
  py_mul (PInt 20) (PFq (mkFq 13 5)) = py_mul (PFq (mkFq 13 5)) (PInt 20) /\
  py_sub (PInt 20) (PFq (mkFq 13 5))
  = (d <- py_sub (PFq (mkFq 13 5)) (PInt 20) ;; py_neg d) /\
  py_sub (PInt 20) (PFq (mkFq 13 5)) = Ok (PFq (mkFq 13 ((20 - 5) mod 13))).
Proof.
  apply (Fq_reflected_operators (mkFq 13 5) 20). simpl. lia.
Defined.

(** * Further properties of the quadratic extension *)

Lemma fq2_of_ints_congr (q a a' b b' : Z) :
  congr q a a' -> congr q b b' -> fq2_of_ints q a b = fq2_of_ints q a' b'.
Proof.
  unfold congr, fq2_of_ints, red. intros -> ->. reflexivity.
Qed.

Lemma built_over_inv (q : Z) (e : Fq2) :
  built_over q e -> q <> 0 /\ exists a b, e = fq2_of_ints q a b.
Proof.
  intros (a & b & H). destruct (Z.eq_dec q 0) as [-> | Hq].
  - discriminate H.
  - split; [exact Hq |]. exists a, b.
    rewrite Fq2_new_ints in H by exact Hq. congruence.
Qed.

Lemma built_over_intro (q a b : Z) : q <> 0 -> built_over q (fq2_of_ints q a b).
Proof. intros Hq. exists a, b. apply Fq2_new_ints, Hq. Qed.

Lemma py_add_Fq2 (q a b c d : Z) :
  q <> 0 ->
  py_add (PFq2 (fq2_of_ints q a b)) (PFq2 (fq2_of_ints q c d))
  = Ok (PFq2 (fq2_of_ints q (a + c) (b + d))).
Proof.
  intros Hq. unfold py_add. rewrite Fq2_add_ints by exact Hq. cbn [bind fmap unwrap].
  do 2 f_equal. apply fq2_of_ints_congr; rewrite congr_mod; reflexivity.
Qed.

Lemma py_mul_Fq2 (q a b c d : Z) :
  q <> 0 ->
  py_mul (PFq2 (fq2_of_ints q a b)) (PFq2 (fq2_of_ints q c d))
  = Ok (PFq2 (fq2_of_ints q (a * c - b * d) (a * d + b * c))).
Proof.
  intros Hq. unfold py_mul. rewrite Fq2_mul_ints by exact Hq. cbn [bind fmap unwrap].
  do 2 f_equal. apply fq2_of_ints_congr; rewrite !congr_mod; reflexivity.
Qed.

Lemma py_neg_Fq2 (q a b : Z) :
  q <> 0 ->
  py_neg (PFq2 (fq2_of_ints q a b)) = Ok (PFq2 (fq2_of_ints q (- a) (- b))).
Proof.
  intros Hq. unfold py_neg. rewrite Fq2_neg_ints by exact Hq. reflexivity.
Qed.

Lemma py_sub_Fq2 (q a b c d : Z) :
  q <> 0 ->
  py_sub (PFq2 (fq2_of_ints q a b)) (PFq2 (fq2_of_ints q c d))
  = Ok (PFq2 (fq2_of_ints q (a - c) (b - d))).
Proof.
  intros Hq. unfold py_sub, Fq2_sub, py_neg.
  rewrite Fq2_neg_ints by exact Hq. cbn [bind fmap].
  rewrite Fq2_add_ints by exact Hq. cbn [bind fmap unwrap].
  do 2 f_equal. apply fq2_of_ints_congr; rewrite congr_mod; unfold congr; f_equal; ring.
Qed.

Lemma Fq2_zero_ok (q : Z) : q <> 0 -> Fq2_zero q = Ok (fq2_of_ints q 0 0).
Proof.
  intros Hq. unfold Fq2_zero, Fq2_from_fq, Fq_from_fq, Fq_zero.
  rewrite !Fq_new_ok by assumption. reflexivity.
Qed.

Lemma Fq2_one_ints (q : Z) : q <> 0 -> Fq2_one q = Ok (fq2_of_ints q 1 0).
Proof. apply Fq2_one_ok. Qed.

(** Brings both sides of a law between elements built from integers to
    the form [Ok (PFq2 (fq2_of_ints q _ _))] and compares the integer
    expressions as ring terms. *)
Ltac fq2_normalize Hq :=
  repeat first
    [ rewrite py_add_Fq2 by exact Hq
    | rewrite py_sub_Fq2 by exact Hq
    | rewrite py_mul_Fq2 by exact Hq
    | rewrite py_neg_Fq2 by exact Hq
    | rewrite Fq2_zero_ok by exact Hq
    | rewrite Fq2_one_ints by exact Hq
    | progress cbn [bind fmap] ].

Ltac fq2_ring Hq :=
  fq2_normalize Hq; do 2 f_equal;
  apply fq2_of_ints_congr; unfold congr; f_equal; ring.

(** X6: The additive laws of [Fq2] on elements built over one modulus: [+]
    is commutative and associative, [zero] is neutral, [e + (-e)] is
    [zero], and [e1 - e2] is [e1 + (-e2)]. *)
Theorem Fq2_additive_laws (q : Z) (e1 e2 e3 : Fq2) :
  built_over q e1 -> built_over q e2 -> built_over q e3 ->
  py_add (PFq2 e1) (PFq2 e2) = py_add (PFq2 e2) (PFq2 e1) /\
  (s <- py_add (PFq2 e1) (PFq2 e2) ;; py_add s (PFq2 e3))
  = (t <- py_add (PFq2 e2) (PFq2 e3) ;; py_add (PFq2 e1) t) /\
  (z <- Fq2_zero q ;; py_add (PFq2 e1) (PFq2 z)) = Ok (PFq2 e1) /\
  (n <- py_neg (PFq2 e1) ;; py_add (PFq2 e1) n) = fmap PFq2 (Fq2_zero q) /\
  py_sub (PFq2 e1) (PFq2 e2) = (n <- py_neg (PFq2 e2) ;; py_add (PFq2 e1) n).
Proof.
  intros H1 H2 H3.
  destruct (built_over_inv _ _ H1) as (Hq & a1 & b1 & ->).
  destruct (built_over_inv _ _ H2) as (_ & a2 & b2 & ->).
  destruct (built_over_inv _ _ H3) as (_ & a3 & b3 & ->).
  repeat split; fq2_ring Hq.
Qed.

Lemma Fq2_additive_laws_witness :
  py_add (PFq2 (fq2_of_ints 13 3 4)) (PFq2 (fq2_of_ints 13 10 4))
  = py_add (PFq2 (fq2_of_ints 13 10 4)) (PFq2 (fq2_of_ints 13 3 4)) /\
  (s <- py_add (PFq2 (fq2_of_ints 13 3 4)) (PFq2 (fq2_of_ints 13 10 4)) ;;
   py_add s (PFq2 (fq2_of_ints 13 7 12)))
  = (t <- py_add (PFq2 (fq2_of_ints 13 10 4)) (PFq2 (fq2_of_ints 13 7 12)) ;;
     py_add (PFq2 (fq2_of_ints 13 3 4)) t) /\
  (z <- Fq2_zero 13 ;; py_add (PFq2 (fq2_of_ints 13 3 4)) (PFq2 z))
  = Ok (PFq2 (fq2_of_ints 13 3 4)) /\
  (n <- py_neg (PFq2 (fq2_of_ints 13 3 4)) ;;
   py_add (PFq2 (fq2_of_ints 13 3 4)) n) = fmap PFq2 (Fq2_zero 13) /\
  py_sub (PFq2 (fq2_of_ints 13 3 4)) (PFq2 (fq2_of_ints 13 10 4))
  = (n <- py_neg (PFq2 (fq2_of_ints 13 10 4)) ;;
     py_add (PFq2 (fq2_of_ints 13 3 4)) n).
Proof.
  apply (Fq2_additive_laws 13 (fq2_of_ints 13 3 4) (fq2_of_ints 13 10 4)
           (fq2_of_ints 13 7 12)).
  - exists 3, 4. reflexivity.
  - exists 10, 4. reflexivity.
  - exists 7, 12. reflexivity.
Defined.

(** X7: The multiplicative laws of [Fq2] on elements built over one
    modulus: [*] is commutative and associative, [one] is neutral,
    [zero] absorbs, and [*] distributes over [+]. *)
Theorem Fq2_multiplicative_laws (q : Z) (e1 e2 e3 : Fq2) :
  built_over q e1 -> built_over q e2 -> built_over q e3 ->
  py_mul (PFq2 e1) (PFq2 e2) = py_mul (PFq2 e2) (PFq2 e1) /\
  (s <- py_mul (PFq2 e1) (PFq2 e2) ;; py_mul s (PFq2 e3))
  = (t <- py_mul (PFq2 e2) (PFq2 e3) ;; py_mul (PFq2 e1) t) /\
  (o <- Fq2_one q ;; py_mul (PFq2 e1) (PFq2 o)) = Ok (PFq2 e1) /\
  (z <- Fq2_zero q ;; py_mul (PFq2 e1) (PFq2 z)) = fmap PFq2 (Fq2_zero q) /\
  (s <- py_add (PFq2 e2) (PFq2 e3) ;; py_mul (PFq2 e1) s)
  = (p <- py_mul (PFq2 e1) (PFq2 e2) ;;
     p' <- py_mul (PFq2 e1) (PFq2 e3) ;; py_add p p').
Proof.
  intros H1 H2 H3.
  destruct (built_over_inv _ _ H1) as (Hq & a1 & b1 & ->).
  destruct (built_over_inv _ _ H2) as (_ & a2 & b2 & ->).
  destruct (built_over_inv _ _ H3) as (_ & a3 & b3 & ->).
  repeat split; fq2_ring Hq.
Qed.

Lemma Fq2_multiplicative_laws_witness :
  py_mul (PFq2 (fq2_of_ints 13 3 4)) (PFq2 (fq2_of_ints 13 10 4))
  = py_mul (PFq2 (fq2_of_ints 13 10 4)) (PFq2 (fq2_of_ints 13 3 4)) /\
  (s <- py_mul (PFq2 (fq2_of_ints 13 3 4)) (PFq2 (fq2_of_ints 13 10 4)) ;;
   py_mul s (PFq2 (fq2_of_ints 13 7 12)))
  = (t <- py_mul (PFq2 (fq2_of_ints 13 10 4)) (PFq2 (fq2_of_ints 13 7 12)) ;;
     py_mul (PFq2 (fq2_of_ints 13 3 4)) t) /\
  (o <- Fq2_one 13 ;; py_mul (PFq2 (fq2_of_ints 13 3 4)) (PFq2 o))
  = Ok (PFq2 (fq2_of_ints 13 3 4)) /\
  (z <- Fq2_zero 13 ;; py_mul (PFq2 (fq2_of_ints 13 3 4)) (PFq2 z))
  = fmap PFq2 (Fq2_zero 13) /\
  (s <- py_add (PFq2 (fq2_of_ints 13 10 4)) (PFq2 (fq2_of_ints 13 7 12)) ;;
   py_mul (PFq2 (fq2_of_ints 13 3 4)) s)
  = (p <- py_mul (PFq2 (fq2_of_ints 13 3 4)) (PFq2 (fq2_of_ints 13 10 4)) ;;
     p' <- py_mul (PFq2 (fq2_of_ints 13 3 4)) (PFq2 (fq2_of_ints 13 7 12)) ;;
     py_add p p').
Proof.
  apply (Fq2_multiplicative_laws 13 (fq2_of_ints 13 3 4) (fq2_of_ints 13 10 4)
           (fq2_of_ints 13 7 12)).
  - exists 3, 4. reflexivity.
  - exists 10, 4. reflexivity.
  - exists 7, 12. reflexivity.
Defined.

Lemma red_mul_any (q v : Z) (s : scalar) :
  q <> 0 -> scalar_mul (red q v) s = Ok (red q (v * int_of s)).
Proof.
  intros Hq. unfold red, scalar_mul, Fq_mul_int; simpl.
  rewrite Fq_new_ok by assumption. simpl.
  rewrite Z.mul_mod_idemp_l by assumption. reflexivity.
Qed.

Lemma Fq2_add_scalar (q a b : Z) (s : scalar) :
  q <> 0 ->
  Fq2_add (fq2_of_ints q a b) (of_scalar s)
  = Ok (Value (fq2_of_ints q (a + int_of s) b)).
Proof.
  intros Hq.
  assert (E : Fq2_add_lift (fq2_of_ints q a b) s
              = Ok (fq2_of_ints q (a + int_of s) b)).
  { unfold Fq2_add_lift, fq2_of_ints. cbn [coeffs ext_Q root].
    rewrite zeros_reduce by exact Hq. cbn [map reduce bind].
    rewrite red_add_any by exact Hq. cbn [bind zipM].
    rewrite !red_add_any by exact Hq. cbn [bind]. simpl int_of.
    f_equal. apply fq2_of_ints_congr; rewrite congr_mod; unfold congr; f_equal; ring. }
  destruct s; simpl of_scalar; unfold Fq2_add; rewrite ?E; reflexivity.
Qed.

Lemma Fq2_mul_scalar (q a b : Z) (s : scalar) :
  q <> 0 ->
  Fq2_mul (fq2_of_ints q a b) (of_scalar s)
  = Ok (Value (fq2_of_ints q (a * int_of s) (b * int_of s))).
Proof.
  intros Hq. destruct s; simpl of_scalar; unfold Fq2_mul, fq2_of_ints;
    cbn [coeffs ext_Q root mapM]; rewrite !red_mul_any by exact Hq; reflexivity.
Qed.

Lemma Fq2_from_fq_canonical (q : Z) (y : Fq) :
  canonical y -> Q y = q ->
  Fq2_from_fq q y = Ok (fq2_of_ints q (val y) 0).
Proof.
  intros Cy Qy. pose proof (canonical_modulus_pos _ Cy) as Hq. rewrite Qy in Hq.
  unfold Fq2_from_fq, Fq_from_fq, Fq_zero. rewrite !Fq_new_ok by lia.
  cbn [bind]. unfold fq2_of_ints, red. simpl map.
  rewrite (Z.mod_small (val y)) by (rewrite <- Qy; apply Cy).
  rewrite <- Qy. destruct y; reflexivity.
Qed.

Lemma Fq2_eq_scalar (q a b : Z) (s : scalar) :
  q <> 0 ->
  Fq2_eq (fq2_of_ints q a b) (of_scalar s)
  = Ok (Value ((b mod q =? 0) && scalar_eq (red q a) s)).
Proof.
  intros Hq.
  assert (E : Fq2_eq_lower (fq2_of_ints q a b) s
              = Ok ((b mod q =? 0) && scalar_eq (red q a) s)).
  { unfold Fq2_eq_lower, Fq_zero, fq2_of_ints.
    cbn [coeffs ext_Q Fq2_embedding Nat.sub seq foldM buf_get nth_error bind].
    rewrite Fq_new_ok by exact Hq. cbn [bind].
    unfold scalar_ne, red at 1. simpl int_of.
    rewrite Z.mod_0_l, negb_involutive by exact Hq.
    destruct (b mod q =? 0); reflexivity. }
  destruct s; simpl of_scalar; unfold Fq2_eq; rewrite E; reflexivity.
Qed.

Lemma Fq2_eq_ints (q a b c d : Z) :
  Fq2_eq (fq2_of_ints q a b) (PFq2 (fq2_of_ints q c d))
  = Ok (Value ((a mod q =? c mod q) && (b mod q =? d mod q))).
Proof.
  unfold Fq2_eq, fq2_of_ints, red. cbn [coeffs ext_Q tuple_eq scalar_eq Q val].
  rewrite !Z.eqb_refl, !andb_true_r. reflexivity.
Qed.

(** X8: A lower operand acts as its lift: for an element [e] built over [q]
    and a prime-field element [y] over [q], [e + y], [e * y], [e - y]
    and [e == y] agree with the same operation on [from_fq(q, y)]; with
    [y] on the left, [y + e] and [y * e] are [e + y] and [e * y], and
    [y - e] is [-(e - y)]. *)
Theorem Fq2_scalar_operand_is_lift (q : Z) (e : Fq2) (y : Fq) :
  built_over q e -> canonical y -> Q y = q ->
  exists l,
    Fq2_from_fq q y = Ok l /\
    py_add (PFq2 e) (PFq y) = py_add (PFq2 e) (PFq2 l) /\
    py_mul (PFq2 e) (PFq y) = py_mul (PFq2 e) (PFq2 l) /\
    py_sub (PFq2 e) (PFq y) = py_sub (PFq2 e) (PFq2 l) /\
    Fq2_eq e (PFq y) = Fq2_eq e (PFq2 l) /\
    py_add (PFq y) (PFq2 e) = py_add (PFq2 e) (PFq y) /\
    py_mul (PFq y) (PFq2 e) = py_mul (PFq2 e) (PFq y) /\
    py_sub (PFq y) (PFq2 e) = (d <- py_sub (PFq2 e) (PFq y) ;; py_neg d).
Proof.
  intros He Cy Qy.
  destruct (built_over_inv _ _ He) as (Hq & a & b & ->).
  exists (fq2_of_ints q (val y) 0).
  split; [apply Fq2_from_fq_canonical; assumption |].
  pose proof (Fq2_add_scalar q a b (SFq y) Hq) as Ha.
  pose proof (Fq2_mul_scalar q a b (SFq y) Hq) as Hm.
  pose proof (Fq2_add_scalar q (- a) (- b) (SFq y) Hq) as Hr.
  simpl of_scalar in Ha, Hm, Hr. simpl int_of in Ha, Hm, Hr.
  assert (Hsub : py_sub (PFq2 (fq2_of_ints q a b)) (PFq y)
                 = Ok (PFq2 (fq2_of_ints q (a - val y) b))).
  { unfold py_sub, Fq2_sub, py_neg, Fq_neg.
    rewrite Fq_new_ok by (rewrite Qy; exact Hq). cbn [bind fmap].
    pose proof (Fq2_add_scalar q a b (SFq (mkFq (Q y) ((- val y) mod Q y))) Hq) as Hs.
    simpl of_scalar in Hs. rewrite Hs. cbn [bind fmap unwrap]. simpl int_of.
    do 2 f_equal. apply fq2_of_ints_congr; [| reflexivity].
    rewrite Qy, congr_mod. reflexivity. }
  repeat split.
  - unfold py_add at 1. rewrite Ha. cbn [bind fmap unwrap].
    rewrite py_add_Fq2 by exact Hq.
    do 2 f_equal. apply fq2_of_ints_congr; unfold congr; f_equal; ring.
  - unfold py_mul at 1. rewrite Hm. cbn [bind fmap unwrap].
    rewrite py_mul_Fq2 by exact Hq.
    do 2 f_equal. apply fq2_of_ints_congr; unfold congr; f_equal; ring.
  - rewrite Hsub, py_sub_Fq2 by exact Hq.
    do 2 f_equal. apply fq2_of_ints_congr; unfold congr; f_equal; ring.
  - pose proof (Fq2_eq_scalar q a b (SFq y) Hq) as Hs. simpl of_scalar in Hs.
    rewrite Hs, Fq2_eq_ints.
    unfold scalar_eq, red. simpl Q. simpl val.
    rewrite Z.mod_0_l by exact Hq.
    rewrite (Z.mod_small (val y)) by (rewrite <- Qy; apply Cy).
    rewrite Qy, Z.eqb_refl, andb_true_r.
    rewrite andb_comm. reflexivity.
  - unfold py_mul, Fq_times, Fq_mul. simpl as_scalar. cbn [bind].
    rewrite Hm. reflexivity.
  - rewrite Hsub. cbn [bind]. rewrite py_neg_Fq2 by exact Hq.
    unfold py_sub, Fq_sub. simpl as_scalar. cbn [bind].
    unfold Fq2_rsub. rewrite Fq2_neg_ints by exact Hq. cbn [bind].
    unfold py_add. rewrite Hr. cbn [bind fmap unwrap].
    do 2 f_equal. apply fq2_of_ints_congr; unfold congr; f_equal; ring.
Qed.

Lemma Fq2_scalar_operand_is_lift_witness :
  exists l,
    Fq2_from_fq 13 (mkFq 13 7) = Ok l /\
    py_add (PFq2 (fq2_of_ints 13 3 4)) (PFq (mkFq 13 7))
    = py_add (PFq2 (fq2_of_ints 13 3 4)) (PFq2 l) /\
    py_mul (PFq2 (fq2_of_ints 13 3 4)) (PFq (mkFq 13 7))
    = py_mul (PFq2 (fq2_of_ints 13 3 4)) (PFq2 l) /\
    py_sub (PFq2 (fq2_of_ints 13 3 4)) (PFq (mkFq 13 7))
    = py_sub (PFq2 (fq2_of_ints 13 3 4)) (PFq2 l) /\
    Fq2_eq (fq2_of_ints 13 3 4) (PFq (mkFq 13 7))
    = Fq2_eq (fq2_of_ints 13 3 4) (PFq2 l) /\
    py_add (PFq (mkFq 13 7)) (PFq2 (fq2_of_ints 13 3 4))
    = py_add (PFq2 (fq2_of_ints 13 3 4)) (PFq (mkFq 13 7)) /\
    py_mul (PFq (mkFq 13 7)) (PFq2 (fq2_of_ints 13 3 4))
    = py_mul (PFq2 (fq2_of_ints 13 3 4)) (PFq (mkFq 13 7)) /\
    py_sub (PFq (mkFq 13 7)) (PFq2 (fq2_of_ints 13 3 4))
    = (d <- py_sub (PFq2 (fq2_of_ints 13 3 4)) (PFq (mkFq 13 7)) ;; py_neg d).
Proof.
  apply (Fq2_scalar_operand_is_lift 13 (fq2_of_ints 13 3 4) (mkFq 13 7)).
  - exists 3, 4. reflexivity.
  - unfold canonical; simpl; lia.
  - reflexivity.
Defined.

(** ** Exponentiation in [Fq2] *)

Lemma gmul_assoc (x y z : Z * Z) : gmul (gmul x y) z = gmul x (gmul y z).
Proof. unfold gmul; simpl. f_equal; ring. Qed.

Lemma gmul_comm (x y : Z * Z) : gmul x y = gmul y x.
Proof. unfold gmul. f_equal; ring. Qed.

Lemma gmul_one_r (x : Z * Z) : gmul x (1, 0) = x.
Proof. destruct x as [a b]. unfold gmul; simpl. f_equal; ring. Qed.

Lemma gpow_add (x : Z * Z) (m n : nat) :
  gpow x (m + n) = gmul (gpow x m) (gpow x n).
Proof.
  induction m as [| m IH]; simpl.
  - rewrite gmul_comm, gmul_one_r. reflexivity.
  - rewrite IH, gmul_assoc. reflexivity.
Qed.

Lemma gpow_square (x : Z * Z) (k : nat) : gpow (gmul x x) k = gpow x (2 * k).
Proof.
  induction k as [| k IH]; [reflexivity |].
  replace (2 * S k)%nat with (2 + 2 * k)%nat by lia.
  rewrite gpow_add. simpl gpow at 1 2. rewrite IH, gmul_one_r. reflexivity.
Qed.

(** The element standing for a Gaussian integer. *)
Lemma Fq2_mul_gmul (q : Z) (x y : Z * Z) :
  q <> 0 ->
  (r <- Fq2_mul (fq2_of_ints q (fst x) (snd x))
                (PFq2 (fq2_of_ints q (fst y) (snd y))) ;; unwrap r)
  = Ok (fq2_of_ints q (fst (gmul x y)) (snd (gmul x y))).
Proof.
  intros Hq. rewrite Fq2_mul_ints by exact Hq. cbn [bind unwrap].
  f_equal. unfold gmul; simpl.
  apply fq2_of_ints_congr; rewrite !congr_mod; reflexivity.
Qed.

Lemma Fq2_pow_loop_exit (ans base : Fq2) (e : Z) :
  e <= 0 -> Fq2_pow_loop ans base e = Ok ans.
Proof.
  intros He. rewrite Fq2_pow_loop_equation_1.
  destruct (Z_lt_dec 0 e); [lia | reflexivity].
Qed.

Lemma Fq2_pow_loop_iter (ans base : Fq2) (e : Z) :
  0 < e ->
  Fq2_pow_loop ans base e
  = (ans' <- (if Z.land e 1 =? 0 then Ok ans
              else r <- Fq2_mul ans (PFq2 base) ;; unwrap r) ;;
     base' <- (r <- Fq2_mul base (PFq2 base) ;; unwrap r) ;;
     Fq2_pow_loop ans' base' (Z.shiftr e 1)).
Proof.
  intros He. rewrite Fq2_pow_loop_equation_1 at 1.
  destruct (Z_lt_dec 0 e); [reflexivity | lia].
Qed.

(** Loop invariant: [ans * base ^ e] does not change. *)
Lemma Fq2_pow_loop_spec (q : Z) (e : Z) :
  q <> 0 -> 0 <= e ->
  forall A B : Z * Z,
    Fq2_pow_loop (fq2_of_ints q (fst A) (snd A)) (fq2_of_ints q (fst B) (snd B)) e
    = Ok (fq2_of_ints q (fst (gmul A (gpow B (Z.to_nat e))))
                        (snd (gmul A (gpow B (Z.to_nat e))))).
Proof.
  intros Hq He. pattern e. apply Zlt_0_ind; [clear e He | exact He].
  intros e IH He A B.
  destruct (Z.eq_dec e 0) as [-> | N0].
  { rewrite Fq2_pow_loop_exit by lia. simpl gpow. rewrite gmul_one_r. reflexivity. }
  assert (Hhalf : 0 <= e / 2 < e) by (Z.div_mod_to_equations; lia).
  assert (Hshift : Z.shiftr e 1 = e / 2).
  { rewrite Z.shiftr_div_pow2 by lia. reflexivity. }
  assert (Hland : Z.land e 1 = e mod 2).
  { change 1 with (Z.ones 1) at 1. rewrite Z.land_ones by lia. reflexivity. }
  rewrite Fq2_pow_loop_iter by lia. rewrite Hshift, Hland.
  rewrite !Fq2_mul_gmul by exact Hq.
  destruct (Z.eqb_spec (e mod 2) 0) as [Hm | Hm]; cbn [bind];
    rewrite (IH (e / 2) Hhalf); rewrite gpow_square.
  - replace (Z.to_nat e) with (2 * Z.to_nat (e / 2))%nat
      by (Z.div_mod_to_equations; lia).
    reflexivity.
  - replace (Z.to_nat e) with (1 + 2 * Z.to_nat (e / 2))%nat
      by (Z.div_mod_to_equations; lia).
    rewrite gpow_add, gmul_assoc.
    replace (gpow B 1) with B by (symmetry; apply gmul_one_r).
    reflexivity.
Qed.

(** X9: [FieldExtBase.__pow__] on an element built over [q]: a negative
    exponent fails the [assert]; exponent [0] gives [one]; each further
    unit of the exponent multiplies by the element once more; and the
    value is the power of the Gaussian integer [a + b i], reduced
    modulo [q]. *)
Theorem Fq2_pow_is_power (q a b n : Z) (e : Fq2) :
  Fq2_new q [PInt a; PInt b] = Ok e -> 0 <= n ->
  Fq2_pow e (- n - 1) = Raise AssertionError /\
  Fq2_pow e 0 = Fq2_one q /\
  Fq2_pow e (n + 1) = (p <- Fq2_pow e n ;; r <- Fq2_mul p (PFq2 e) ;; unwrap r) /\
  Fq2_pow e n = Fq2_new q [PInt (fst (gpow (a, b) (Z.to_nat n)));
                           PInt (snd (gpow (a, b) (Z.to_nat n)))].
Proof.
  intros He Hn.
  assert (Hb : built_over q e) by (exists a, b; exact He).
  destruct (built_over_inv _ _ Hb) as (Hq & _).
  rewrite Fq2_new_ints in He by exact Hq. injection He as <-.
  assert (Hpow : forall m, 0 <= m ->
            Fq2_pow (fq2_of_ints q a b) m
            = Ok (fq2_of_ints q (fst (gpow (a, b) (Z.to_nat m)))
                                (snd (gpow (a, b) (Z.to_nat m))))).
  { intros m Hm. unfold Fq2_pow.
    destruct (Z.ltb_spec m 0) as [Hlt | _]; [lia |].
    cbn [ext_Q fq2_of_ints]. rewrite Fq2_one_ints by exact Hq. cbn [bind].
    pose proof (Fq2_pow_loop_spec q m Hq Hm (1, 0) (a, b)) as HL.
    cbn [fst snd] in HL.
    etransitivity; [exact HL |].
    rewrite gmul_comm, gmul_one_r. reflexivity. }
  split.
  { unfold Fq2_pow. destruct (Z.ltb_spec (- n - 1) 0); [reflexivity | lia]. }
  split.
  { rewrite Hpow by lia. rewrite Fq2_one_ints by exact Hq. reflexivity. }
  split.
  - rewrite !Hpow by lia. cbn [bind].
    pose proof (Fq2_mul_gmul q (gpow (a, b) (Z.to_nat n)) (a, b) Hq) as Hmul.
    cbn [fst snd] in Hmul. rewrite Hmul.
    replace (Z.to_nat (n + 1)) with (S (Z.to_nat n)) by lia.
    simpl gpow. rewrite gmul_comm. reflexivity.
  - rewrite Hpow by lia. rewrite Fq2_new_ints by exact Hq. reflexivity.
Qed.

Lemma Fq2_pow_is_power_witness :
  Fq2_pow (fq2_of_ints 13 3 4) (- 5 - 1) = Raise AssertionError /\
  Fq2_pow (fq2_of_ints 13 3 4) 0 = Fq2_one 13 /\
  Fq2_pow (fq2_of_ints 13 3 4) (5 + 1)
  = (p <- Fq2_pow (fq2_of_ints 13 3 4) 5 ;;
     r <- Fq2_mul p (PFq2 (fq2_of_ints 13 3 4)) ;; unwrap r) /\
  Fq2_pow (fq2_of_ints 13 3 4) 5
  = Fq2_new 13 [PInt (fst (gpow (3, 4) (Z.to_nat 5)));
                PInt (snd (gpow (3, 4) (Z.to_nat 5)))].
Proof.
  apply (Fq2_pow_is_power 13 3 4 5 (fq2_of_ints 13 3 4)); [reflexivity | lia].
Defined.

(** ** Division, order, truth value and copies in [Fq2] *)

(** X10: Division undoes multiplication in [Fq2]: over a prime modulus, for
    a divisor [c + d i] whose norm is nonzero in the field,
    [(e1 / e2) * e2] is [e1]. *)
Theorem Fq2_floordiv_then_mul (q a b c d : Z) (e1 e2 : Fq2) :
  Z.prime q ->
  Fq2_new q [PInt a; PInt b] = Ok e1 ->
  Fq2_new q [PInt c; PInt d] = Ok e2 ->
  (c * c + d * d) mod q <> 0 ->
  (r <- Fq2_floordiv e1 (PFq2 e2) ;; x <- unwrap r ;; py_mul (PFq2 x) (PFq2 e2))
  = Ok (PFq2 e1).
Proof.
  intros Hp H1 H2 Hn. pose proof (Z.prime_ge_2 _ Hp) as Hq2.
  assert (Hq : q <> 0) by lia.
  rewrite Fq2_new_ints in H1, H2 by exact Hq.
  injection H1 as <-. injection H2 as <-.
  set (n := mkFq q ((c * c + d * d) mod q)).
  assert (Cn : canonical n) by (apply Fq_new_canonical; lia).
  destruct (Fq_invert_ok n Hp Cn Hn) as (i & Ei & _ & _ & Mi).
  simpl in Mi.
  unfold Fq2_floordiv, py_invert.
  rewrite (Fq2_invert_ints q c d i Hq Ei). cbn [fmap bind].
  rewrite Fq2_mul_ints by exact Hq. cbn [bind unwrap].
  rewrite py_mul_Fq2 by exact Hq.
  do 2 f_equal.
  assert (Hone : congr q ((c * c + d * d) * val i) 1).
  { unfold congr. rewrite <- Z.mul_mod_idemp_l, Mi by exact Hq.
    symmetry. apply Z.mod_small. lia. }
  apply fq2_of_ints_congr; rewrite !congr_mod.
  - transitivity (a * ((c * c + d * d) * val i)).
    + unfold congr. f_equal. ring.
    + rewrite Hone, Z.mul_1_r. reflexivity.
  - transitivity (b * ((c * c + d * d) * val i)).
    + unfold congr. f_equal. ring.
    + rewrite Hone, Z.mul_1_r. reflexivity.
Qed.

Lemma Fq2_floordiv_then_mul_witness :
  (r <- Fq2_floordiv (fq2_of_ints 13 3 4) (PFq2 (fq2_of_ints 13 1 2)) ;;
   x <- unwrap r ;; py_mul (PFq2 x) (PFq2 (fq2_of_ints 13 1 2)))
  = Ok (PFq2 (fq2_of_ints 13 3 4)).
Proof.
  apply (Fq2_floordiv_then_mul 13 3 4 1 2).
  - exact prime_13.
  - reflexivity.
  - reflexivity.
  - vm_compute. discriminate.
Defined.

Lemma Fq2_lt_ints (q a b c d : Z) :
  Fq2_lt (fq2_of_ints q a b) (PFq2 (fq2_of_ints q c d))
  = Ok (if b mod q =? d mod q then a mod q <? c mod q else b mod q <? d mod q).
Proof.
  unfold Fq2_lt, fq2_of_ints, red.
  cbn [coeffs rev app tuple_lt scalar_eq scalar_lt int_of Q val].
  rewrite !Z.eqb_refl, !andb_true_r.
  destruct (b mod q =? d mod q); [| reflexivity].
  destruct (Z.eqb_spec (a mod q) (c mod q)) as [E | N]; [| reflexivity].
  rewrite E, Z.ltb_irrefl. reflexivity.
Qed.

(** X11: [less_than] is a strict total order on the elements built over one
    modulus: irreflexive, asymmetric, transitive, and any two distinct
    elements are comparable. *)
Theorem Fq2_lt_strict_total_order (q : Z) (e1 e2 e3 : Fq2) :
  built_over q e1 -> built_over q e2 -> built_over q e3 ->
  Fq2_lt e1 (PFq2 e1) = Ok false /\
  (Fq2_lt e1 (PFq2 e2) = Ok true -> Fq2_lt e2 (PFq2 e1) = Ok false) /\
  (Fq2_lt e1 (PFq2 e2) = Ok true -> Fq2_lt e2 (PFq2 e3) = Ok true ->
   Fq2_lt e1 (PFq2 e3) = Ok true) /\
  (Fq2_lt e1 (PFq2 e2) = Ok true \/ e1 = e2 \/ Fq2_lt e2 (PFq2 e1) = Ok true).
Proof.
  intros H1 H2 H3.
  destruct (built_over_inv _ _ H1) as (Hq & a1 & b1 & ->).
  destruct (built_over_inv _ _ H2) as (_ & a2 & b2 & ->).
  destruct (built_over_inv _ _ H3) as (_ & a3 & b3 & ->).
  rewrite !Fq2_lt_ints.
  assert (Heq : a1 mod q = a2 mod q -> b1 mod q = b2 mod q ->
                fq2_of_ints q a1 b1 = fq2_of_ints q a2 b2)
    by (intros; apply fq2_of_ints_congr; assumption).
  generalize dependent (a1 mod q). generalize dependent (a2 mod q).
  generalize dependent (b1 mod q). generalize dependent (b2 mod q).
  generalize (a3 mod q) (b3 mod q).
  intros A3 B3 B2 B1 A2 A1 Heq.
  repeat split.
  - rewrite Z.eqb_refl, Z.ltb_irrefl. reflexivity.
  - intros H. f_equal.
    destruct (Z.eqb_spec B1 B2), (Z.eqb_spec B2 B1); try lia;
      injection H as H; apply Z.ltb_lt in H; apply Z.ltb_ge; lia.
  - intros H H'. f_equal.
    destruct (Z.eqb_spec B1 B2), (Z.eqb_spec B2 B3), (Z.eqb_spec B1 B3); try lia;
      injection H as H; injection H' as H';
      apply Z.ltb_lt in H; apply Z.ltb_lt in H'; apply Z.ltb_lt; lia.
  - destruct (Z.eqb_spec B1 B2) as [EB | NB], (Z.eqb_spec B2 B1); try lia.
    + destruct (Z.lt_trichotomy A1 A2) as [L | [E | G]].
      * left. f_equal. apply Z.ltb_lt, L.
      * right; left. apply Heq; assumption.
      * right; right. f_equal. apply Z.ltb_lt. lia.
    + destruct (Z.lt_trichotomy B1 B2) as [L | [E | G]]; try lia.
      * left. f_equal. apply Z.ltb_lt, L.
      * right; right. f_equal. apply Z.ltb_lt. lia.
Qed.

Lemma Fq2_lt_strict_total_order_witness :
  Fq2_lt (fq2_of_ints 13 5 1) (PFq2 (fq2_of_ints 13 5 1)) = Ok false /\
  (Fq2_lt (fq2_of_ints 13 5 1) (PFq2 (fq2_of_ints 13 1 2)) = Ok true ->
   Fq2_lt (fq2_of_ints 13 1 2) (PFq2 (fq2_of_ints 13 5 1)) = Ok false) /\
  (Fq2_lt (fq2_of_ints 13 5 1) (PFq2 (fq2_of_ints 13 1 2)) = Ok true ->
   Fq2_lt (fq2_of_ints 13 1 2) (PFq2 (fq2_of_ints 13 0 3)) = Ok true ->
   Fq2_lt (fq2_of_ints 13 5 1) (PFq2 (fq2_of_ints 13 0 3)) = Ok true) /\
  (Fq2_lt (fq2_of_ints 13 5 1) (PFq2 (fq2_of_ints 13 1 2)) = Ok true \/
   fq2_of_ints 13 5 1 = fq2_of_ints 13 1 2 \/
   Fq2_lt (fq2_of_ints 13 1 2) (PFq2 (fq2_of_ints 13 5 1)) = Ok true).
Proof.
  apply (Fq2_lt_strict_total_order 13 (fq2_of_ints 13 5 1) (fq2_of_ints 13 1 2)
           (fq2_of_ints 13 0 3)).
  - exists 5, 1. reflexivity.
  - exists 1, 2. reflexivity.
  - exists 0, 3. reflexivity.
Defined.

(** X12: [is_nonzero] agrees with equality to [zero]: an element built over
    [q] is falsy exactly when it is [zero(q)], and [e == zero(q)] is the
    negation of [bool(e)]. *)
Theorem Fq2_bool_iff_not_zero (q : Z) (e : Fq2) :
  built_over q e ->
  exists z,
    Fq2_zero q = Ok z /\
    (Fq2_bool e = false <-> e = z) /\
    Fq2_eq e (PFq2 z) = Ok (Value (negb (Fq2_bool e))).
Proof.
  intros He. destruct (built_over_inv _ _ He) as (Hq & a & b & ->).
  exists (fq2_of_ints q 0 0). split; [apply Fq2_zero_ok, Hq |].
  rewrite Fq2_eq_ints, Z.mod_0_l by exact Hq.
  assert (Hb : Fq2_bool (fq2_of_ints q a b)
               = negb ((a mod q =? 0) && (b mod q =? 0))).
  { unfold Fq2_bool, fq2_of_ints, red, scalar_bool. simpl.
    destruct (a mod q =? 0), (b mod q =? 0); reflexivity. }
  rewrite Hb, negb_involutive. split; [| reflexivity].
  rewrite negb_false_iff, andb_true_iff, !Z.eqb_eq. split.
  - intros [Ea Eb]. apply fq2_of_ints_congr; unfold congr;
      rewrite Z.mod_0_l by exact Hq; assumption.
  - intros E. unfold fq2_of_ints, red in E.
    rewrite !Z.mod_0_l in E by exact Hq.
    injection E as Ea Eb. split; assumption.
Qed.

Lemma Fq2_bool_iff_not_zero_witness :
  exists z,
    Fq2_zero 13 = Ok z /\
    (Fq2_bool (fq2_of_ints 13 26 13) = false <-> fq2_of_ints 13 26 13 = z) /\
    Fq2_eq (fq2_of_ints 13 26 13) (PFq2 z)
    = Ok (Value (negb (Fq2_bool (fq2_of_ints 13 26 13)))).
Proof.
  apply (Fq2_bool_iff_not_zero 13 (fq2_of_ints 13 26 13)).
  exists 26, 13. reflexivity.
Defined.

(** X13: Copies: [__deepcopy__] rebuilds every [Fq] with [Fq(Q, int(self))],
    which returns an equal element when the value is within range; so
    the copy of a prime-field element that satisfies the invariant, and
    of an extension element built over [q], is the element itself. *)
Theorem deepcopy_is_identity (q : Z) (x : Fq) (e : Fq2) :
  canonical x -> built_over q e ->
  Fq_deepcopy x = Ok x /\ Fq2_deepcopy e = Ok e.
Proof.
  intros Cx He. split.
  - unfold Fq_deepcopy.
    rewrite Fq_new_ok by (pose proof (canonical_modulus_pos _ Cx); lia).
    rewrite Z.mod_small by apply Cx. destruct x; reflexivity.
  - destruct (built_over_inv _ _ He) as (Hq & a & b & ->).
    unfold Fq2_deepcopy, fq2_of_ints, red, scalar_deepcopy, Fq_deepcopy.
    cbn [coeffs ext_Q root mapM Q val].
    rewrite !Fq_new_ok by exact Hq. cbn [fmap bind].
    rewrite !Zmod_mod. reflexivity.
Qed.

Lemma deepcopy_is_identity_witness :
  Fq_deepcopy (mkFq 13 5) = Ok (mkFq 13 5) /\
  Fq2_deepcopy (fq2_of_ints 13 3 4) = Ok (fq2_of_ints 13 3 4).
Proof.
  apply (deepcopy_is_identity 13 (mkFq 13 5) (fq2_of_ints 13 3 4)).
  - unfold canonical; simpl; lia.
  - exists 3, 4. reflexivity.
Defined.

(** ** What construction accepts *)

Lemma mapM_length {A B : Type} (f : A -> result B) (l : list A) (l' : list B) :
  mapM f l = Ok l' -> length l' = length l.
Proof.
  revert l'; induction l as [| a l IH]; intros l' H; simpl in H.
  - injection H as <-. reflexivity.
  - destruct (f a) as [b | ex]; [| discriminate]. cbn [bind] in H.
    destruct (mapM f l) as [bs | ex]; [| discriminate]. cbn [bind] in H.
    injection H as <-. simpl. f_equal. apply IH. reflexivity.
Qed.

Lemma mapM_raises {A B : Type} (f : A -> result B) (l : list A) (a : A) :
  In a l -> raises (f a) -> raises (mapM f l).
Proof.
  induction l as [| a' l IH]; intros Hin Hr; simpl in Hin; [contradiction |].
  simpl. destruct Hin as [-> | Hin].
  - destruct (f a); [contradiction | exact I].
  - destruct (f a'); [| exact I]. cbn [bind].
    specialize (IH Hin Hr). destruct (mapM f l); [contradiction | exact I].
Qed.

Lemma raises_bind {A B : Type} (m : result A) (k : A -> result B) :
  raises m -> raises (bind m k).
Proof. destruct m; [contradiction | intros _; exact I]. Qed.

(** X14: The shape of every element the constructor returns: the modulus is
    nonzero and stored, [root] is [Fq(Q, -1)], there are as many
    coefficients as arguments and at least two, and more than two only
    when the first two arguments are [Fq] objects. *)
Theorem Fq2_new_success_shape (q : Z) (args : list pyval) (e : Fq2) :
  Fq2_new q args = Ok e ->
  q <> 0 /\ ext_Q e = q /\ root e = mkFq q ((-1) mod q) /\
  length (coeffs e) = length args /\ (2 <= length args)%nat /\
  (length args = 2%nat \/
   exists x0 x1 rest, args = PFq x0 :: PFq x1 :: rest).
Proof.
  intros H. unfold Fq2_new in H.
  destruct args as [| a0 [| a1 rest]].
  - discriminate H.
  - destruct a0; discriminate H.
  - destruct (Z.eqb_spec q 0) as [Hq0 | Hq].
    + exfalso. subst q.
      destruct a0 as [n0 | x0 | f0], a1 as [n1 | x1 | f1];
        try (destruct rest as [| a2 rest]; simpl in H; discriminate H).
      simpl in H. destruct (mapM _ rest) in H; discriminate H.
    + pose proof (proj2 (Z.eqb_neq q 0) Hq) as Hqb.
      destruct a0 as [n0 | x0 | f0], a1 as [n1 | x1 | f1];
        try (destruct rest as [| a2 rest]; simpl in H;
             unfold Fq_new in H; rewrite ?Hqb in H; simpl in H;
             try discriminate H;
             injection H as <-; simpl;
             repeat split; try assumption; try lia; left; reflexivity).
      * simpl in H.
        match type of H with
        | context [mapM ?f rest] => destruct (mapM f rest) as [cs |] eqn:Ecs
        end; simpl in H; unfold Fq_new in H; rewrite ?Hqb in H; simpl in H;
          [| discriminate H].
        injection H as <-; simpl. apply mapM_length in Ecs.
        repeat split; try assumption; try lia. right; eauto.
Qed.

Lemma Fq2_new_success_shape_witness :
  13 <> 0 /\ ext_Q (fq2_of_ints 13 3 4) = 13 /\
  root (fq2_of_ints 13 3 4) = mkFq 13 ((-1) mod 13) /\
  length (coeffs (fq2_of_ints 13 3 4)) = length [PInt 3; PInt 4] /\
  (2 <= length [PInt 3; PInt 4])%nat /\
  (length [PInt 3; PInt 4] = 2%nat \/
   exists x0 x1 rest, [PInt 3; PInt 4] = PFq x0 :: PFq x1 :: rest).
Proof.
  apply (Fq2_new_success_shape 13 [PInt 3; PInt 4] (fq2_of_ints 13 3 4)).
  reflexivity.
Defined.

(** X15: Construction never accepts an extension element as a coefficient:
    whatever the other arguments and the modulus, an argument list that
    holds an [Fq2] object makes [Fq2(Q, *args)] raise. *)
Theorem Fq2_new_rejects_extension_argument
    (q : Z) (args : list pyval) (f : Fq2) :
  In (PFq2 f) args -> raises (Fq2_new q args).
Proof.
  intros Hin. destruct (Fq2_new q args) as [e |] eqn:E; [| exact I].
  exfalso. unfold Fq2_new in E.
  assert (Hcheck : forall l, In (PFq2 f) l ->
            raises (mapM (fun arg : pyval =>
                            match as_scalar arg with
                            | Some s => Ok s
                            | None => Raise AssertionError
                            end) l)).
  { intros l Hl. apply (mapM_raises _ l (PFq2 f) Hl). exact I. }
  destruct args as [| a0 [| a1 rest]].
  - contradiction.
  - destruct a0; discriminate E.
  - destruct a0 as [n0 | x0 | f0], a1 as [n1 | x1 | f1];
      try (destruct rest as [| a2 rest]; simpl in E;
           repeat (destruct (Fq_new _ _) in E; simpl in E);
           discriminate E).
    + destruct rest as [| a2 rest]; [| discriminate E].
      simpl in Hin. destruct Hin as [Hin | [Hin | []]]; discriminate Hin.
    + destruct rest as [| a2 rest]; [| discriminate E].
      simpl in Hin. destruct Hin as [Hin | [Hin | []]]; discriminate Hin.
    + destruct rest as [| a2 rest]; [| discriminate E].
      simpl in Hin. destruct Hin as [Hin | [Hin | []]]; discriminate Hin.
    + specialize (Hcheck _ Hin).
      cbn [arg_at nth_error extension_of bind] in E.
      replace (negb (Fq_extension =? 1)) with false in E by reflexivity.
      cbn [bind] in E.
      destruct (mapM _ (PFq x0 :: PFq x1 :: rest)) in *;
        [contradiction | discriminate E].
Qed.

Lemma Fq2_new_rejects_extension_argument_witness :
  raises (Fq2_new 13 [PFq (mkFq 13 1); PFq (mkFq 13 2); PFq2 (fq2_of_ints 13 3 4)]).
Proof.
  apply (Fq2_new_rejects_extension_argument 13 _ (fq2_of_ints 13 3 4)).
  simpl. auto.
Defined.

(** X16: An element of norm zero has no inverse, and [invert] does not say
    so: when [a^2 + b^2] is [0] modulo a nonzero [q], in particular for
    [zero(q)], [Fq2.__invert__] raises nothing and returns [zero(q)]. *)
Theorem Fq2_invert_norm_zero (q a b : Z) (e : Fq2) :
  Fq2_new q [PInt a; PInt b] = Ok e ->
  (a * a + b * b) mod q = 0 ->
  Fq2_invert e = Fq2_zero q /\
  (exists z, Fq2_zero q = Ok z /\ Fq2_invert z = Ok z).
Proof.
  intros He Hn.
  assert (Hb : built_over q e) by (exists a, b; exact He).
  destruct (built_over_inv _ _ Hb) as (Hq & _).
  rewrite Fq2_new_ints in He by exact Hq. injection He as <-.
  rewrite Fq2_zero_ok by exact Hq.
  assert (Hinv : forall c d, (c * c + d * d) mod q = 0 ->
            Fq2_invert (fq2_of_ints q c d) = Ok (fq2_of_ints q 0 0)).
  { intros c d Hcd.
    rewrite (Fq2_invert_ints q c d (mkFq q 0) Hq)
      by (rewrite Hcd; apply Fq_invert_zero, Hq).
    simpl val. f_equal. apply fq2_of_ints_congr; unfold congr; f_equal; ring. }
  split; [apply Hinv, Hn |].
  exists (fq2_of_ints q 0 0). split; [reflexivity |].
  apply Hinv. simpl. apply Z.mod_0_l, Hq.
Qed.

Lemma Fq2_invert_norm_zero_witness :
  Fq2_invert (fq2_of_ints 13 2 3) = Fq2_zero 13 /\
  (exists z, Fq2_zero 13 = Ok z /\ Fq2_invert z = Ok z).
Proof.
  apply (Fq2_invert_norm_zero 13 2 3 (fq2_of_ints 13 2 3)); reflexivity.
Defined.

(** * Operands over different moduli, all pairings *)

(** An extension element and a prime-field element, in either order:
    every operation returns an extension element over the extension
    element's modulus.  With the prime-field element on the left, [Fq]'s
    method declines and the extension's reflected method runs. *)
Lemma cross_modulus_mixed (y : Fq) (q1 a b : Z) :
  Q y <> 0 -> q1 <> 0 ->
  exists e1 i j,
    Fq2_new q1 [PInt a; PInt b] = Ok e1 /\
    Fq_invert y = Ok i /\ Q i = Q y /\
    Fq_invert (mkFq q1 ((a * a + b * b) mod q1)) = Ok j /\
    py_add (PFq2 e1) (PFq y)
    = fmap PFq2 (Fq2_new q1 [PInt (a + val y); PInt b]) /\
    py_sub (PFq2 e1) (PFq y)
    = fmap PFq2 (Fq2_new q1 [PInt (a + (- val y) mod Q y); PInt b]) /\
    py_mul (PFq2 e1) (PFq y)
    = fmap PFq2 (Fq2_new q1 [PInt (a * val y); PInt (b * val y)]) /\
    Fq2_floordiv e1 (PFq y)
    = fmap Value (Fq2_new q1 [PInt (a * val i); PInt (b * val i)]) /\
    py_add (PFq y) (PFq2 e1)
    = fmap PFq2 (Fq2_new q1 [PInt (a + val y); PInt b]) /\
    py_sub (PFq y) (PFq2 e1)
    = fmap PFq2 (Fq2_new q1 [PInt (- a + val y); PInt (- b)]) /\
    py_mul (PFq y) (PFq2 e1)
    = fmap PFq2 (Fq2_new q1 [PInt (a * val y); PInt (b * val y)]) /\
    Fq_floordiv y (PFq2 e1)
    = fmap PFq2 (Fq2_new q1 [PInt (a * val j * val y);
                             PInt (- b * val j * val y)]).
Proof.
  intros Hy Hq1.
  destruct (Fq_invert_total y Hy) as (i & Ei & Qi).
  destruct (Fq_invert_total (mkFq q1 ((a * a + b * b) mod q1)) Hq1)
    as (j & Ej & _).
  exists (fq2_of_ints q1 a b), i, j.
  rewrite !Fq2_new_ints by exact Hq1. cbn [fmap bind].
  pose proof (Fq2_add_scalar q1 a b (SFq y) Hq1) as Ha.
  pose proof (Fq2_mul_scalar q1 a b (SFq y) Hq1) as Hm.
  pose proof (Fq2_mul_scalar q1 a b (SFq i) Hq1) as Hd.
  pose proof (Fq2_add_scalar q1 (- a) (- b) (SFq y) Hq1) as Hr.
  pose proof (Fq2_add_scalar q1 a b
                (SFq (mkFq (Q y) ((- val y) mod Q y))) Hq1) as Hs.
  pose proof (Fq2_mul_scalar q1 (a * val j) (- b * val j) (SFq y) Hq1) as Hv.
  simpl of_scalar in Ha, Hm, Hd, Hr, Hs, Hv.
  simpl int_of in Ha, Hm, Hd, Hr, Hs, Hv.
  split; [reflexivity |]. split; [exact Ei |]. split; [exact Qi |].
  split; [exact Ej |].
  split; [unfold py_add; rewrite Ha; reflexivity |].
  split.
  { unfold py_sub, Fq2_sub, py_neg, Fq_neg.
    rewrite Fq_new_ok by exact Hy. cbn [fmap bind].
    rewrite Hs. reflexivity. }
  split; [unfold py_mul; rewrite Hm; reflexivity |].
  split.
  { unfold Fq2_floordiv, py_invert. rewrite Ei. cbn [fmap bind]. exact Hd. }
  split.
  { unfold py_add, Fq_add. simpl as_scalar. cbn [bind].
    rewrite Ha. reflexivity. }
  split.
  { unfold py_sub, Fq_sub. simpl as_scalar. cbn [bind].
    unfold Fq2_rsub. rewrite Fq2_neg_ints by exact Hq1. cbn [bind].
    unfold py_add. rewrite Hr. reflexivity. }
  split.
  { unfold py_mul, Fq_times, Fq_mul. simpl as_scalar. cbn [bind].
    rewrite Hm. reflexivity. }
  unfold Fq_floordiv, py_invert. cbn [bind].
  rewrite (Fq2_invert_ints q1 a b j Hq1 Ej). cbn [fmap bind].
  unfold Fq_times, Fq_mul. simpl as_scalar. cbn [bind].
  rewrite Hv. reflexivity.
Qed.

(** C1 (amended): [add], [sub], [mul] and [div] on two field elements
    built over different nonzero moduli do not fail, and no operation
    compares the moduli; one of the two is used silently.

    - Two prime-field elements: the result is over the left operand's
      modulus; [add], [sub] and [mul] reduce the sum, difference or
      product of the two values modulo the left modulus, and [div]
      multiplies by the inverse of the right operand taken over the
      right operand's own modulus.
    - Two extension elements (built from integers): the result is over
      the left operand's modulus; the right coefficients enter reduced
      modulo the right modulus, [sub] adds their negation taken over the
      right modulus, [mul] is the convolution, [div] multiplies by the
      inverse taken over the right modulus, and every result coefficient
      is reduced modulo the left modulus.
    - An extension element and a prime-field element, in either order:
      the result is an extension element over the extension element's
      modulus; with the prime-field element on the left this is the
      right operand's modulus, through the reflected methods. *)
Theorem cross_modulus_operations_do_not_fail
    (x y : Fq) (q1 q2 a b c d : Z) :
  Q x <> 0 -> Q y <> 0 -> Q x <> Q y ->
  q1 <> 0 -> q2 <> 0 -> q1 <> q2 -> Q y <> q1 ->
  (Fq_add x (PFq y) = Ok (Value (mkFq (Q x) ((val x + val y) mod (Q x)))) /\
   Fq_sub x (PFq y) = Ok (Value (mkFq (Q x) ((val x - val y) mod (Q x)))) /\
   Fq_mul x (PFq y) = Ok (Value (mkFq (Q x) ((val x * val y) mod (Q x)))) /\
   exists i,
     Fq_invert y = Ok i /\ Q i = (Q y) /\
     Fq_floordiv x (PFq y) = Ok (PFq (mkFq (Q x) ((val x * val i) mod (Q x))))) /\
  (exists e1 e2 i,
      Fq2_new q1 [PInt a; PInt b] = Ok e1 /\
      Fq2_new q2 [PInt c; PInt d] = Ok e2 /\
      Fq_invert (mkFq q2 ((c * c + d * d) mod q2)) = Ok i /\
      Fq2_add e1 (PFq2 e2)
      = fmap Value (Fq2_new q1 [PInt (a + c mod q2); PInt (b + d mod q2)]) /\
      Fq2_sub e1 (PFq2 e2)
      = fmap Value (Fq2_new q1 [PInt (a + (- c) mod q2);
                                PInt (b + (- d) mod q2)]) /\
      Fq2_mul e1 (PFq2 e2)
      = fmap Value (Fq2_new q1 [PInt (a * (c mod q2) - b * (d mod q2));
                                PInt (a * (d mod q2) + b * (c mod q2))]) /\
      Fq2_floordiv e1 (PFq2 e2)
      = fmap Value
          (Fq2_new q1
             [PInt (a * ((c * val i) mod q2) - b * ((- d * val i) mod q2));
              PInt (a * ((- d * val i) mod q2) + b * ((c * val i) mod q2))])) /\
  (exists e1 i j,
      Fq2_new q1 [PInt a; PInt b] = Ok e1 /\
      Fq_invert y = Ok i /\ Q i = (Q y) /\
      Fq_invert (mkFq q1 ((a * a + b * b) mod q1)) = Ok j /\
      py_add (PFq2 e1) (PFq y)
      = fmap PFq2 (Fq2_new q1 [PInt (a + val y); PInt b]) /\
      py_sub (PFq2 e1) (PFq y)
      = fmap PFq2 (Fq2_new q1 [PInt (a + (- val y) mod (Q y)); PInt b]) /\
      py_mul (PFq2 e1) (PFq y)
      = fmap PFq2 (Fq2_new q1 [PInt (a * val y); PInt (b * val y)]) /\
      Fq2_floordiv e1 (PFq y)
      = fmap Value (Fq2_new q1 [PInt (a * val i); PInt (b * val i)]) /\
      py_add (PFq y) (PFq2 e1)
      = fmap PFq2 (Fq2_new q1 [PInt (a + val y); PInt b]) /\
      py_sub (PFq y) (PFq2 e1)
      = fmap PFq2 (Fq2_new q1 [PInt (- a + val y); PInt (- b)]) /\
      py_mul (PFq y) (PFq2 e1)
      = fmap PFq2 (Fq2_new q1 [PInt (a * val y); PInt (b * val y)]) /\
      Fq_floordiv y (PFq2 e1)
      = fmap PFq2 (Fq2_new q1 [PInt (a * val j * val y);
                               PInt (- b * val j * val y)])).
Proof.
  intros Hx Hy _ Hq1 Hq2 _ _.
  destruct (cross_modulus_same_kind x y q1 q2 a b c d Hx Hy Hq1 Hq2)
    as (Hfq & Hext).
  split; [exact Hfq |]. split; [exact Hext |].
  exact (cross_modulus_mixed y q1 a b Hy Hq1).
Qed.

Lemma cross_modulus_operations_do_not_fail_witness :
  (Fq_add (mkFq 13 5) (PFq (mkFq 17 10)) = Ok (Value (mkFq 13 ((5 + 10) mod 13))) /\
   Fq_sub (mkFq 13 5) (PFq (mkFq 17 10)) = Ok (Value (mkFq 13 ((5 - 10) mod 13))) /\
   Fq_mul (mkFq 13 5) (PFq (mkFq 17 10)) = Ok (Value (mkFq 13 ((5 * 10) mod 13))) /\
   exists i,
     Fq_invert (mkFq 17 10) = Ok i /\ Q i = 17 /\
     Fq_floordiv (mkFq 13 5) (PFq (mkFq 17 10)) = Ok (PFq (mkFq 13 ((5 * val i) mod 13)))) /\
  (exists e1 e2 i,
      Fq2_new 13 [PInt 3; PInt 4] = Ok e1 /\
      Fq2_new 17 [PInt 15; PInt 16] = Ok e2 /\
      Fq_invert (mkFq 17 ((15 * 15 + 16 * 16) mod 17)) = Ok i /\
      Fq2_add e1 (PFq2 e2)
      = fmap Value (Fq2_new 13 [PInt (3 + 15 mod 17); PInt (4 + 16 mod 17)]) /\
      Fq2_sub e1 (PFq2 e2)
      = fmap Value (Fq2_new 13 [PInt (3 + (- 15) mod 17);
                                PInt (4 + (- 16) mod 17)]) /\
      Fq2_mul e1 (PFq2 e2)
      = fmap Value (Fq2_new 13 [PInt (3 * (15 mod 17) - 4 * (16 mod 17));
                                PInt (3 * (16 mod 17) + 4 * (15 mod 17))]) /\
      Fq2_floordiv e1 (PFq2 e2)
      = fmap Value
          (Fq2_new 13
             [PInt (3 * ((15 * val i) mod 17) - 4 * ((- 16 * val i) mod 17));
              PInt (3 * ((- 16 * val i) mod 17) + 4 * ((15 * val i) mod 17))])) /\
  (exists e1 i j,
      Fq2_new 13 [PInt 3; PInt 4] = Ok e1 /\
      Fq_invert (mkFq 17 10) = Ok i /\ Q i = 17 /\
      Fq_invert (mkFq 13 ((3 * 3 + 4 * 4) mod 13)) = Ok j /\
      py_add (PFq2 e1) (PFq (mkFq 17 10))
      = fmap PFq2 (Fq2_new 13 [PInt (3 + 10); PInt 4]) /\
      py_sub (PFq2 e1) (PFq (mkFq 17 10))
      = fmap PFq2 (Fq2_new 13 [PInt (3 + (- 10) mod 17); PInt 4]) /\
      py_mul (PFq2 e1) (PFq (mkFq 17 10))
      = fmap PFq2 (Fq2_new 13 [PInt (3 * 10); PInt (4 * 10)]) /\
      Fq2_floordiv e1 (PFq (mkFq 17 10))
      = fmap Value (Fq2_new 13 [PInt (3 * val i); PInt (4 * val i)]) /\
      py_add (PFq (mkFq 17 10)) (PFq2 e1)
      = fmap PFq2 (Fq2_new 13 [PInt (3 + 10); PInt 4]) /\
      py_sub (PFq (mkFq 17 10)) (PFq2 e1)
      = fmap PFq2 (Fq2_new 13 [PInt (- 3 + 10); PInt (- 4)]) /\
      py_mul (PFq (mkFq 17 10)) (PFq2 e1)
      = fmap PFq2 (Fq2_new 13 [PInt (3 * 10); PInt (4 * 10)]) /\
      Fq_floordiv (mkFq 17 10) (PFq2 e1)
      = fmap PFq2 (Fq2_new 13 [PInt (3 * val j * 10);
                               PInt (- 4 * val j * 10)])).
Proof.
  apply (cross_modulus_operations_do_not_fail
           (mkFq 13 5) (mkFq 17 10) 13 17 3 4 15 16);
    simpl; lia.
Defined.

Example ex_fq_plus_fq2_cross :
  py_add (PFq (mkFq 13 5)) (PFq2 (fq2_of_ints 17 1 2))
  = Ok (PFq2 (fq2_of_ints 17 6 2)).
Proof. reflexivity. Qed.

Example ex_fq2_minus_fq2_cross :
  Fq2_sub (fq2_of_ints 13 3 4) (PFq2 (fq2_of_ints 17 15 16))
  = Ok (Value (fq2_of_ints 13 5 5)).
Proof. reflexivity. Qed.
